(** * Swarm local chunk store, retrieval server and p2p simulation harness

    A shallow embedding of the Go sources
      - [LocalStore.Put] and [LocalStore.Get] (package storage),
      - [SimNode.AddPeer] and [SimNode.RunProtocol] (package adapters,
        inproc.go), [RLPx.Connect] (package adapters),
      - [Network.Connect], [Network.DidConnect] and the lookups they use
        (package simulations),
    with the properties their specification states about them.

    Conventions.  A Go pointer to a heap object is a location (an index
    into a store of objects), so that two references to one chunk, node or
    connection see each other's writes.  A Go slice is the list of its
    elements; where the code reslices a slice (the payload of a chunk) the
    rest of its backing array, up to its capacity, is kept beside it; the
    nil slice of an optional payload is [None].  A goroutine started with
    [go] is an entry of a list of pending tasks, run later by an explicit
    step.  A runtime panic is a result of its own, never a silent
    default. *)

From stdpp Require Import gmap strings list fin_maps relations.
From Stdlib Require Import ZArith Lia Strings.Byte.

#[global] Instance byte_eq_dec : EqDecision byte := Byte.byte_eq_dec.
#[global] Instance byte_countable : Countable byte :=
  inj_countable Byte.to_N Byte.of_N Byte.of_to_N.

(** Recency-ordered association lists: the head is the most recently used
    entry.  Both chunk stores keep their entries this way. *)
Section Assoc.
Context {V : Type}.

Fixpoint assoc_lookup (k : list byte) (es : list (list byte * V)) : option V :=
  match es with
  | [] => None
  | (k', v) :: es' => if decide (k = k') then Some v else assoc_lookup k es'
  end.

Fixpoint assoc_remove (k : list byte) (es : list (list byte * V))
  : list (list byte * V) :=
  match es with
  | [] => []
  | (k', v) :: es' =>
      if decide (k = k') then assoc_remove k es' else (k', v) :: assoc_remove k es'
  end.

(** Walks from the oldest entry and drops the first one that may go. *)
Fixpoint drop_first_evictable (keep : V -> bool) (oldest_first : list (list byte * V))
  : list (list byte * V) :=
  match oldest_first with
  | [] => []
  | e :: rest =>
      if keep e.2 then e :: drop_first_evictable keep rest else rest
  end.

Definition evict_one (keep : V -> bool) (es : list (list byte * V))
  : list (list byte * V) :=
  rev (drop_first_evictable keep (rev es)).
End Assoc.

Module Storage.

(** A [*Chunk] is a location in the heap of chunk objects. *)
Definition loc := nat.

(** [chan bool] used as a one-shot signal: nil, open, or closed. *)
Inductive signal := NoChan | Open | Closed.

(** The fields of [Chunk] that LocalStore reads and writes.  [SData] holds
    the elements of the slice, and [spare] what its backing array holds
    behind them: the capacity of the slice is the length of both together.
    [wg] is the optional [*sync.WaitGroup], named by its index among the
    wait groups. *)
Record Chunk := mkChunk {
  Key : list byte;
  SData : option (list byte);
  spare : list byte;
  Size : Z;
  wg : option nat;
  dbStored : signal
}.

Definition set_Key (k : list byte) (c : Chunk) : Chunk :=
  mkChunk k (SData c) (spare c) (Size c) (wg c) (dbStored c).
Definition set_Size (n : Z) (c : Chunk) : Chunk :=
  mkChunk (Key c) (SData c) (spare c) n (wg c) (dbStored c).
Definition set_dbStored (d : signal) (c : Chunk) : Chunk :=
  mkChunk (Key c) (SData c) (spare c) (Size c) (wg c) d.

(** [[]byte(nil)] and [[]byte{}] hold the same bytes. *)
Definition bytes_of (d : option (list byte)) : list byte := default [] d.

Inductive error := notFound | ioError | corrupt.

(** Modelled from the spec: MemStore, whose source is not in the repository
    files at hand.  "A mapping from Key to Chunk bounded by MemStoreCapacity
    entries.  Put: insert or overwrite; if at capacity, evict one entry ...
    if the evictee is still pending (SData nil), do not evict, instead evict
    the next candidate.  Get: bump recency; return the live chunk reference.
    Capacity zero means unbounded."  And, of a store at capacity that holds
    pending chunks only: "expect no pending chunk evicted (insert fails or
    evicts the resident instead ...), but pending must survive": either way
    the store is then left as it was, without the new chunk. *)
Record MemStore := mkMemStore {
  memCapacity : nat;
  memEntries : list (list byte * loc)
}.

Definition pending (h : gmap loc Chunk) (l : loc) : bool :=
  match h !! l with
  | Some c => match SData c with None => true | Some _ => false end
  | None => false
  end.

(** The store has room for one more entry beside those under other keys
    than [k]. *)
Definition has_room (k : list byte) (m : MemStore) : bool :=
  (memCapacity m =? 0) || (length (assoc_remove k (memEntries m)) <? memCapacity m).

(** The store takes an entry under [k]: it has room, or one of its other
    entries is not pending and can go. *)
Definition admits (h : gmap loc Chunk) (k : list byte) (m : MemStore) : bool :=
  has_room k m
  || negb (forallb (fun e => pending h e.2) (assoc_remove k (memEntries m))).

Definition MemStore_Put (h : gmap loc Chunk) (l : loc) (m : MemStore) : MemStore :=
  match h !! l with
  | None => m
  | Some c =>
      let es := assoc_remove (Key c) (memEntries m) in
      if has_room (Key c) m then mkMemStore (memCapacity m) ((Key c, l) :: es)
      else if forallb (fun e => pending h e.2) es then m
      else mkMemStore (memCapacity m) ((Key c, l) :: evict_one (pending h) es)
  end.

Definition MemStore_Get (k : list byte) (m : MemStore) : option loc * MemStore :=
  match assoc_lookup k (memEntries m) with
  | Some l => (Some l, mkMemStore (memCapacity m) ((k, l) :: assoc_remove k (memEntries m)))
  | None => (None, m)
  end.

(** Modelled from the spec: DbStore, whose source is not in the repository
    files at hand.  "A mapping from Key to serialized chunk bytes, bounded
    by DbStoreCapacity logical entries.  Put is idempotent (writing the same
    key twice is a no-op beyond refreshing LRU metadata); Get distinguishes
    notFound; when insertion would exceed capacity, remove the
    least-recently-accessed entry; access bumps occur on Get and Put."
    The payload that [Get] returns for a key is a slice into a buffer of the
    substrate: [dbSpare] is what that buffer holds behind the payload, which
    neither the spec nor the repository files fix. *)
Record DbStore := mkDbStore {
  dbCapacity : nat;
  dbEntries : list (list byte * list byte);
  dbSpare : list byte -> list byte
}.

Definition db_write (k v : list byte) (d : DbStore) : DbStore :=
  match assoc_lookup k (dbEntries d) with
  | Some v0 =>
      mkDbStore (dbCapacity d) ((k, v0) :: assoc_remove k (dbEntries d)) (dbSpare d)
  | None =>
      mkDbStore (dbCapacity d)
        ((k, v) :: (if dbCapacity d <=? length (dbEntries d)
                    then removelast (dbEntries d) else dbEntries d))
        (dbSpare d)
  end.

(** The LocalStore (its [memStore] and [DbStore] fields) together with what
    its methods reach through pointers: the chunk objects, the wait groups,
    and the goroutines that [Put] has started and that have not run yet
    (each is the closure of [Put], which captures its chunk). *)
Record State := mkState {
  heap : gmap loc Chunk;
  memStore : MemStore;
  dbStore : DbStore;
  waitGroups : gmap nat N;
  goroutines : list loc
}.

Definition set_heap (h : gmap loc Chunk) (s : State) : State :=
  mkState h (memStore s) (dbStore s) (waitGroups s) (goroutines s).
Definition set_memStore (m : MemStore) (s : State) : State :=
  mkState (heap s) m (dbStore s) (waitGroups s) (goroutines s).
Definition set_dbStore (d : DbStore) (s : State) : State :=
  mkState (heap s) (memStore s) d (waitGroups s) (goroutines s).
Definition set_waitGroups (w : gmap nat N) (s : State) : State :=
  mkState (heap s) (memStore s) (dbStore s) w (goroutines s).
Definition set_goroutines (g : list loc) (s : State) : State :=
  mkState (heap s) (memStore s) (dbStore s) (waitGroups s) g.

(** [sync.WaitGroup]: a counter that panics when it would go negative. *)
Definition counter (g : nat) (s : State) : N := default 0%N (waitGroups s !! g).

Definition wg_Add (g : nat) (s : State) : State :=
  set_waitGroups (<[g := (counter g s + 1)%N]> (waitGroups s)) s.

Definition wg_Done (g : nat) (s : State) : option State :=
  if (counter g s =? 0)%N then None
  else Some (set_waitGroups (<[g := (counter g s - 1)%N]> (waitGroups s)) s).

(** Modelled from the spec: DbStore.Put.  "The chunk's dbStored signal must
    fire after the write is durable, regardless of success or error."
    [ok] is the outcome of the write on the durable substrate. *)
Definition DbStore_Put (ok : bool) (l : loc) (s : State) : State :=
  match heap s !! l with
  | None => s
  | Some c =>
      let d := if ok then db_write (Key c) (bytes_of (SData c)) (dbStore s)
               else dbStore s in
      set_heap (<[l := set_dbStored Closed c]> (heap s)) (set_dbStore d s)
  end.

(** Modelled from the spec: DbStore.Get.  A hit decodes a new chunk object
    and refreshes the entry; a miss is [notFound]. *)
Definition DbStore_Get (k : list byte) (s : State) : (loc + error) * State :=
  match assoc_lookup k (dbEntries (dbStore s)) with
  | None => (inr notFound, s)
  | Some v =>
      let l := fresh (dom (heap s)) in
      let d := mkDbStore (dbCapacity (dbStore s))
                 ((k, v) :: assoc_remove k (dbEntries (dbStore s)))
                 (dbSpare (dbStore s)) in
      (inl l,
       set_heap (<[l := mkChunk k (Some v) (dbSpare (dbStore s) k) 0%Z None NoChan]> (heap s))
         (set_dbStore d s))
  end.

(** [binary.LittleEndian.Uint64] on an 8-byte slice, and the conversion
    [int64(_)] of its result. *)
Definition Uint64 (b : list byte) : Z :=
  fold_right (fun x acc => Z.lor (Z.of_N (Byte.to_N x)) (Z.shiftl acc 8)) 0%Z b.

Definition int64 (u : Z) : Z := (if u <? 2 ^ 63 then u else u - 2 ^ 64)%Z.

(** The slice expression [b[0:8]].  Go bounds it by the capacity of [b],
    not by its length: it is a runtime panic when the capacity is below 8
    (that of a nil slice is 0), and otherwise the first 8 bytes of the
    backing array, which reach behind the elements of [b] when [b] is
    shorter. *)
Definition slice_0_8 (b : option (list byte)) (behind : list byte)
  : option (list byte) :=
  match b with
  | None => None
  | Some b =>
      if 8 <=? length b + length behind then Some (take 8 (b ++ behind)) else None
  end.

Section LocalStore.
(** The embedded [*Hasher]. *)
Variable Hash : list byte -> list byte.

(** [func (self *LocalStore) Put(chunk *Chunk)].  [None] is the panic of
    dereferencing a chunk pointer that points to no chunk. *)
Definition Put (chunk : loc) (s : State) : option State :=
  match heap s !! chunk with
  | None => None
  | Some c0 =>
      let c1 := set_dbStored Open c0 in
      let c2 := if length (Key c1) =? 0
                then set_Key (Hash (bytes_of (SData c1))) c1 else c1 in
      let s1 := set_heap (<[chunk := c2]> (heap s)) s in
      let s2 := set_memStore (MemStore_Put (heap s1) chunk (memStore s1)) s1 in
      let s3 := match wg c2 with Some g => wg_Add g s2 | None => s2 end in
      Some (match SData c2 with
            | Some _ => set_goroutines (goroutines s3 ++ [chunk]) s3
            | None => s3
            end)
  end.

(** The body of the goroutine that [Put] starts:
    [self.DbStore.Put(chunk); if chunk.wg != nil { chunk.wg.Done() }]. *)
Definition run_goroutine (ok : bool) (chunk : loc) (s : State) : option State :=
  let s1 := DbStore_Put ok chunk s in
  match heap s1 !! chunk with
  | None => None
  | Some c => match wg c with Some g => wg_Done g s1 | None => Some s1 end
  end.

(** One scheduling step: some pending goroutine runs to completion, its
    durable write succeeding or failing. *)
Definition run_nth (i : nat) (ok : bool) (s : State) : option State :=
  match goroutines s !! i with
  | None => None
  | Some chunk => run_goroutine ok chunk (set_goroutines (delete i (goroutines s)) s)
  end.

Definition step (s s' : State) : Prop :=
  exists i ok, run_nth i ok s = Some s'.

(** [chunk.WaitToStore()] returns once [dbStored] is closed. *)
Definition stored (chunk : loc) (s : State) : Prop :=
  exists c, heap s !! chunk = Some c /\ dbStored c = Closed.

Inductive result := Found (chunk : loc) | Failed (err : error) | Panic.

(** [func (self *LocalStore) Get(key Key) (chunk *Chunk, err error)]. *)
Definition Get (key : list byte) (s : State) : result * State :=
  match MemStore_Get key (memStore s) with
  | (Some l, m) => (Found l, set_memStore m s)
  | (None, _) =>
      match DbStore_Get key s with
      | (inr err, s1) => (Failed err, s1)
      | (inl l, s1) =>
          match heap s1 !! l with
          | None => (Panic, s1)
          | Some c =>
              match slice_0_8 (SData c) (spare c) with
              | None => (Panic, s1)
              | Some b =>
                  let c' := set_Size (int64 (Uint64 b)) c in
                  let s2 := set_heap (<[l := c']> (heap s1)) s1 in
                  (Found l, set_memStore (MemStore_Put (heap s2) l (memStore s2)) s2)
              end
          end
      end
  end.
End LocalStore.

(** The key is held by one of the two stores. *)
Definition contains (key : list byte) (s : State) : Prop :=
  is_Some (assoc_lookup key (memEntries (memStore s)))
  \/ is_Some (assoc_lookup key (dbEntries (dbStore s))).

(** What a scheduling step leaves alone: the memory store, and every chunk
    up to its durability signal. *)
Definition foreground_kept (s s' : State) : Prop :=
  memStore s' = memStore s
  /\ forall l c, heap s !! l = Some c -> exists d, heap s' !! l = Some (set_dbStored d c).

(** The goroutines that will call [Done] on wait group [g]: those whose
    chunk carries it. *)
Definition owes (h : gmap loc Chunk) (g : nat) (l : loc) : bool :=
  match h !! l with
  | Some c => bool_decide (wg c = Some g)
  | None => false
  end.

Definition owing (g : nat) (s : State) : nat :=
  length (List.filter (owes (heap s) g) (goroutines s)).

(** Every pending goroutine has its chunk, and no wait group is owed more
    calls of [Done] than its counter allows. *)
Definition balanced (s : State) : Prop :=
  (forall l, l ∈ goroutines s -> is_Some (heap s !! l))
  /\ forall g, (N.of_nat (owing g s) <= counter g s)%N.

End Storage.

(** The server side of the retrieval protocol (package [network]), as the
    exchanges of the repository's tests fix its messages. *)
Module Retrieval.
Import Storage.

Record OfferedHashesMsg := mkOfferedHashes {
  Stream : string;
  OKey : list byte;
  From : N;
  To : N;
  Hashes : option (list byte);
  HandoverProof : option (list byte)
}.

Record RetrieveRequestMsg := mkRetrieveRequest {
  RKey : list byte;
  SkipCheck : bool
}.

Record ChunkDeliveryMsg := mkChunkDelivery {
  DKey : list byte;
  DData : option (list byte)
}.

Inductive Msg :=
| OfferedHashes (m : OfferedHashesMsg)
| RetrieveRequest (m : RetrieveRequestMsg)
| ChunkDelivery (m : ChunkDeliveryMsg).

(** The message codes of the exchanges. *)
Definition code (m : Msg) : N :=
  match m with
  | OfferedHashes _ => 1
  | RetrieveRequest _ => 5
  | ChunkDelivery _ => 6
  end.

Definition is_OfferedHashes (m : Msg) : bool :=
  match m with OfferedHashes _ => true | _ => false end.
Definition is_ChunkDelivery (m : Msg) : bool :=
  match m with ChunkDelivery _ => true | _ => false end.

(** The zero value of [OfferedHashesMsg]. *)
Definition emptyOffer : OfferedHashesMsg :=
  mkOfferedHashes EmptyString [] 0 0 None None.

(** What the handler of a message does: it returns, having sent some
    messages to the requesting peer, or it panics. *)
Inductive reply := Sent (ms : list Msg) | HandlerPanic.

Section Server.
(** The name of the well-known stream; its value is declared elsewhere. *)
Variable retrieveRequestStream : string.

(** Modelled from the spec: the handler of an inbound RetrieveRequestMsg,
    whose source is not in the repository files at hand.  "On receiving
    RetrieveRequest{key, SkipCheck}, look up the key in LocalStore.  ...
    If found and SkipCheck=true: reply directly with ChunkDelivery{key,
    SData}.  If found and SkipCheck=false: reply with OfferedHashesMsg
    whose Hashes contains the key, From=0, To=32."  The lookup is
    [LocalStore.Get] of the source, and a panic of the lookup is one of the
    handler.  The messages of the two found cases are those that the
    exchanges of [TestStreamerUpstreamRetrieveRequestMsgExchange] expect.
    For a key that is not found the spec goes on "reply with an empty
    OfferedHashesMsg (From=0, To=0, Hashes=nil)"; the repository's test of
    that exchange, [TestStreamerUpstreamRetrieveRequestMsgExchangeWithoutStore],
    expects that very message and passes only when the exchange ends in
    "timed out", that is when the message does not arrive.  The test is
    the code of the repository on this exchange, and the handler follows
    it: for a key that is not found it sends nothing. *)
Definition handleRetrieveRequestMsg (req : RetrieveRequestMsg) (s : State)
  : reply * State :=
  match Get (RKey req) s with
  | (Found l, s') =>
      match heap s' !! l with
      | None => (HandlerPanic, s')
      | Some c =>
          if SkipCheck req
          then (Sent [ChunkDelivery (mkChunkDelivery (RKey req) (SData c))], s')
          else (Sent [OfferedHashes
                        (mkOfferedHashes retrieveRequestStream [] 0 32
                           (Some (RKey req)) None)], s')
      end
  | (Failed _, s') => (Sent [], s')
  | (Panic, s') => (HandlerPanic, s')
  end.
End Server.

(** The handler has answered the request with exactly one message, a
    ChunkDeliveryMsg for the requested key that carries [data]. *)
Definition delivers (req : RetrieveRequestMsg) (data : option (list byte))
    (r : reply * State) : Prop :=
  exists m,
    r.1 = Sent [ChunkDelivery m]
    /\ code (ChunkDelivery m) = 6%N
    /\ DKey m = RKey req /\ DData m = data
    /\ filter is_OfferedHashes [ChunkDelivery m] = [].

End Retrieval.

(** The in-process node adapter (package [adapters], inproc.go). *)
Module Adapters.

(** [discover.NodeID]. *)
Definition NodeID := list byte.

Inductive PeerEventType := PeerEventTypeAdd | PeerEventTypeDrop.

Record PeerEvent := mkPeerEvent {
  Type_ : PeerEventType;
  Peer : NodeID;
  Error : string
}.

(** One end of a [p2p.MsgPipe] inside the wrapper of [p2p.NewMsgEventer]:
    the pipe, which of its two ends, the node whose feed receives the
    message events, and the peer id the wrapper was given. *)
Record MsgReadWriteCloser := mkRW {
  pipe : nat;
  second_end : bool;
  feed : NodeID;
  label : NodeID
}.

(** The goroutines that [RunProtocol] starts on a node: the one that waits
    on [dropPeers] to close the pipe end, and the protocol runner. *)
Inductive Goroutine :=
| Dropper (node : NodeID) (rw : MsgReadWriteCloser)
| Runner (node peer : NodeID) (protocol : string) (rw : MsgReadWriteCloser).

(** [running] is the started service, given by its protocols; [None] is the
    nil service of a node that has not started.  [peerFeed] records the
    events sent on the node's feed. *)
Record SimNode := mkSimNode {
  running : option (list string);
  peers : gmap NodeID MsgReadWriteCloser;
  peerFeed : list PeerEvent
}.

(** The adapter's nodes by id, the number of pipes made so far, and the
    goroutines started so far. *)
Record SimAdapter := mkSimAdapter {
  nodes : gmap NodeID SimNode;
  pipes : nat;
  goroutines : list Goroutine
}.

Definition set_nodes (n : gmap NodeID SimNode) (a : SimAdapter) : SimAdapter :=
  mkSimAdapter n (pipes a) (goroutines a).
Definition spawn (g : Goroutine) (a : SimAdapter) : SimAdapter :=
  mkSimAdapter (nodes a) (pipes a) (goroutines a ++ [g]).
Definition set_peers (p : gmap NodeID MsgReadWriteCloser) (n : SimNode) : SimNode :=
  mkSimNode (running n) p (peerFeed n).
Definition feed_Send (ev : PeerEvent) (n : SimNode) : SimNode :=
  mkSimNode (running n) (peers n) (peerFeed n ++ [ev]).

(** How a call ends: it returns, it panics, or it blocks for ever on a lock
    its own caller holds. *)
Inductive outcome := Returned | Panicked | Blocked.

(** [func (self *SimNode) Running() bool]. *)
Definition Running (n : SimNode) : bool :=
  match running n with Some _ => true | None => false end.

(** [func (self *SimNode) RunProtocol(peer *SimNode, rw MsgReadWriteCloser)]:
    the first goroutine is started before [self.running.Protocols()[0]] is
    evaluated, the second after. *)
Definition RunProtocol (self peer : NodeID) (rw : MsgReadWriteCloser)
    (a : SimAdapter) : outcome * SimAdapter :=
  let a1 := spawn (Dropper self rw) a in
  match nodes a1 !! self with
  | None => (Panicked, a1)
  | Some n =>
      match running n with
      | Some (protocol :: _) => (Returned, spawn (Runner self peer protocol rw) a1)
      | _ => (Panicked, a1)
      end
  end.

(** The first action of a started goroutine: a runner sends the peer add
    event on its own node's feed; a dropper waits. *)
Definition start (g : Goroutine) (a : SimAdapter) : SimAdapter :=
  match g with
  | Runner node peer _ _ =>
      set_nodes (alter (feed_Send (mkPeerEvent PeerEventTypeAdd peer EmptyString)) node (nodes a)) a
  | Dropper _ _ => a
  end.

(** [func (self *SimNode) AddPeer(peer *discover.Node)].  [self.lock] is
    held throughout, and [peerNode.Running()] takes [peerNode.lock]: when
    the peer is the node itself the call never returns. *)
Definition AddPeer (self peer : NodeID) (a : SimAdapter) : outcome * SimAdapter :=
  match nodes a !! self with
  | None => (Panicked, a)
  | Some n =>
      match peers n !! peer with
      | Some _ => (Returned, a)
      | None =>
          match nodes a !! peer with
          | None => (Panicked, a)
          | Some peerNode =>
              if decide (peer = self) then (Blocked, a)
              else if negb (Running peerNode) then (Returned, a)
              else
                let localRW := mkRW (pipes a) false self peer in
                let peerRW := mkRW (pipes a) true self self in
                let a1 := mkSimAdapter
                            (<[self := set_peers (<[peer := peerRW]> (peers n)) n]> (nodes a))
                            (S (pipes a)) (goroutines a) in
                match RunProtocol peer self peerRW a1 with
                | (Returned, a2) => RunProtocol self peer localRW a2
                | r => r
                end
          end
      end
  end.

(** [func (s *SimAdapter) NewNode(config *NodeConfig) (Node, error)], with
    the adapter's services given by their names.  The new node has no
    running service and no peer; the fields of [SimNode] that only [Start]
    and [Stop] use are not kept. *)
Inductive NewNodeError :=
| NodeExists (id : NodeID)
| UnknownService (name : string).

Definition NewNode (services : gset string) (id : NodeID) (service : string)
    (a : SimAdapter) : option NewNodeError * SimAdapter :=
  match nodes a !! id with
  | Some _ => (Some (NodeExists id), a)
  | None =>
      if decide (service ∈ services)
      then (None, set_nodes (<[id := mkSimNode None ∅ []]> (nodes a)) a)
      else (Some (UnknownService service), a)
  end.

(** [func (s *SimAdapter) GetNode(id discover.NodeID)]: the node, if any. *)
Definition GetNode (id : NodeID) (a : SimAdapter) : option SimNode := nodes a !! id.

(** [func (self *SimNode) RemovePeer(peer *discover.Node)]; the result
    holds the pipe end that was closed, if any. *)
Definition RemovePeer (self peer : NodeID) (a : SimAdapter)
  : outcome * option MsgReadWriteCloser * SimAdapter :=
  match nodes a !! self with
  | None => (Panicked, None, a)
  | Some n =>
      match peers n !! peer with
      | None => (Returned, None, a)
      | Some peerRW =>
          (Returned, Some peerRW,
           set_nodes (<[self := set_peers (delete peer (peers n)) n]> (nodes a)) a)
      end
  end.

(** [func (self *SimNode) PeerCount() int]. *)
Definition PeerCount (self : NodeID) (a : SimAdapter) : option nat :=
  n ← nodes a !! self; Some (size (peers n)).

(** What a runner does once [protocol.Run] has returned [err]: it removes
    the peer and sends the drop event.  [err.Error()] on a nil error is a
    panic, after the peer has been removed. *)
Definition runner_exit (node peer : NodeID) (err : option string) (a : SimAdapter)
  : outcome * SimAdapter :=
  match RemovePeer node peer a with
  | (Returned, _, a1) =>
      match err with
      | None => (Panicked, a1)
      | Some e =>
          (Returned,
           set_nodes (alter (feed_Send (mkPeerEvent PeerEventTypeDrop peer e)) node
                        (nodes a1)) a1)
      end
  | (o, _, a1) => (o, a1)
  end.

(** [func (api *SimAdminAPI) AddPeer(url string) (bool, error)]:
    [ParseNode] gives the node id of a url that parses. *)
Definition Admin_AddPeer (ParseNode : string -> option NodeID) (self : NodeID)
    (url : string) (a : SimAdapter) : outcome * bool * SimAdapter :=
  match ParseNode url with
  | None => (Returned, false, a)
  | Some peer => let '(o, a') := AddPeer self peer a in (o, true, a')
  end.

(** Every registered pipe end belongs to a pipe made so far, and no pipe
    is registered twice. *)
Definition pipes_fresh (a : SimAdapter) : Prop :=
  (forall id n p rw,
     nodes a !! id = Some n -> peers n !! p = Some rw -> pipe rw < pipes a)
  /\ (forall id1 n1 p1 rw1 id2 n2 p2 rw2,
        nodes a !! id1 = Some n1 -> peers n1 !! p1 = Some rw1 ->
        nodes a !! id2 = Some n2 -> peers n2 !! p2 = Some rw2 ->
        pipe rw1 = pipe rw2 -> id1 = id2 /\ p1 = p2).

(** [NewSimAdapter]: no node yet. *)
Definition NewSimAdapter : SimAdapter := mkSimAdapter ∅ 0 [].

(** A call on the adapter or on one of its nodes, or the exit of a
    runner. *)
Inductive call :=
| CallNewNode (id : NodeID) (service : string)
| CallAddPeer (self peer : NodeID)
| CallRemovePeer (self peer : NodeID)
| CallRunnerExit (node peer : NodeID) (err : option string).

(** The adapter after a call, however the call ended. *)
Definition after (services : gset string) (c : call) (a : SimAdapter) : SimAdapter :=
  match c with
  | CallNewNode id service => (NewNode services id service a).2
  | CallAddPeer self peer => (AddPeer self peer a).2
  | CallRemovePeer self peer => (RemovePeer self peer a).2
  | CallRunnerExit node peer err => (runner_exit node peer err a).2
  end.

Definition after_all (services : gset string) (cs : list call) (a : SimAdapter)
  : SimAdapter :=
  foldl (fun a c => after services c a) a cs.

End Adapters.

(** The simulated network (package [simulations], network.go). *)
Module Simulations.

(** [*adapters.NodeId], compared through its [NodeID]. *)
Definition NodeId := list byte.

(** A runtime panic ([Crash]) or a normal return. *)
Inductive res (A : Type) := Ok (a : A) | Crash.
Arguments Ok {A} a.
Arguments Crash {A}.

Definition res_bind {A B : Type} (r : res A) (k : A -> res B) : res B :=
  match r with Ok a => k a | Crash => Crash end.

Notation "x <- r ;; k" := (res_bind r (fun x => k))
  (at level 100, r at next level, right associativity).

(** Indexing a slice: out of range is a panic. *)
Definition index {A : Type} (l : list A) (i : nat) : res A :=
  match l !! i with Some a => Ok a | None => Crash end.

(** The methods of the [adapters.NodeAdapter] interface that [Connect]
    calls.  An adapter's [Connect] returns nil or an error. *)
Record NodeAdapter := mkNodeAdapter {
  Addr : list byte;
  na_Connect : list byte -> option string
}.

(** [func (self *RLPx) Connect(enode []byte) error]: it parses the node
    url, hands the node to the p2p server and returns nil; it does not call
    back into the network.  [ParseNode] tells whether the url parses. *)
Definition RLPx_Connect (ParseNode : list byte -> bool) (enode : list byte)
  : option string :=
  if ParseNode enode then None else Some "invalid node URL"%string.

Module Node.
Record t := mk {
  Id : NodeId;
  Up : bool;
  na : NodeAdapter
}.
End Node.

(** [one] and [other] are the [*Node] pointers: positions in [Nodes]. *)
Module Conn.
Record t := mk {
  One : NodeId;
  Other : NodeId;
  one : nat;
  other : nat;
  Up : bool;
  Reverse : bool
}.
End Conn.

Inductive error :=
| ErrOneNotExist
| ErrOtherNotExist
| ErrOneNotUp (id : NodeId)
| ErrOtherNotUp (id : NodeId)
| ErrAlreadyConnected (one other : NodeId)
| ErrConnNotExist (one other : NodeId)
| ErrAdapter (msg : string).

(** [ConnEvent]: the action and the connection (its position in [Conns]). *)
Record ConnEvent := mkConnEvent {
  Action : string;
  Type_ : string;
  conn : nat
}.

(** [events] records what has been posted on the network's event mux. *)
Record Network := mkNetwork {
  nodeMap : gmap NodeId nat;
  connMap : gmap string nat;
  Nodes : list Node.t;
  Conns : list Conn.t;
  events : list ConnEvent
}.

Section Network.
(** [ConnLabel] is declared elsewhere in the package. *)
Variable ConnLabel : NodeId -> NodeId -> string.

(** [getNode]: nil when the id is unknown, else [self.Nodes[i]]. *)
Definition getNode (id : NodeId) (net : Network) : res (option nat) :=
  match nodeMap net !! id with
  | None => Ok None
  | Some i => _ <- index (Nodes net) i ;; Ok (Some i)
  end.

(** [getConn]: nil when the label is unknown, else [self.Conns[i]]. *)
Definition getConn (oneId otherId : NodeId) (net : Network) : res (option nat) :=
  match connMap net !! ConnLabel oneId otherId with
  | None => Ok None
  | Some i => _ <- index (Conns net) i ;; Ok (Some i)
  end.

Definition GetConn := getConn.

Definition newConn (oneId otherId : NodeId) (net : Network) : res (Conn.t + error) :=
  one <- getNode oneId net ;;
  match one with
  | None => Ok (inr ErrOneNotExist)
  | Some one =>
      other <- getNode otherId net ;;
      match other with
      | None => Ok (inr ErrOtherNotExist)
      | Some other => Ok (inl (Conn.mk oneId otherId one other false false))
      end
  end.

Definition GetOrCreateConn (oneId otherId : NodeId) (net : Network)
  : res ((nat + error) * Network) :=
  c <- getConn oneId otherId net ;;
  match c with
  | Some i => Ok (inl i, net)
  | None =>
      r <- newConn oneId otherId net ;;
      match r with
      | inr err => Ok (inr err, net)
      | inl conn =>
          Ok (inl (length (Conns net)),
              mkNetwork (nodeMap net)
                (<[ConnLabel oneId otherId := length (Conns net)]> (connMap net))
                (Nodes net) (Conns net ++ [conn]) (events net))
      end
  end.

(** [func (self *Conn) nodesUp() error]. *)
Definition nodesUp (c : Conn.t) (net : Network) : res (option error) :=
  one <- index (Nodes net) (Conn.one c) ;;
  if negb (Node.Up one) then Ok (Some (ErrOneNotUp (Conn.One c)))
  else
    other <- index (Nodes net) (Conn.other c) ;;
    if negb (Node.Up other) then Ok (Some (ErrOtherNotUp (Conn.Other c)))
    else Ok None.

(** [func (self *Network) Connect(oneId, otherId *adapters.NodeId) error].
    The closing call of [DidConnect] is commented out in the source: the
    connection is marked up only when [DidConnect] is called. *)
Definition Connect (oneId otherId : NodeId) (net : Network)
  : res (option error * Network) :=
  r <- GetOrCreateConn oneId otherId net ;;
  match r with
  | (inr err, net1) => Ok (Some err, net1)
  | (inl i, net1) =>
      c <- index (Conns net1) i ;;
      if Conn.Up c then Ok (Some (ErrAlreadyConnected oneId otherId), net1)
      else
        up <- nodesUp c net1 ;;
        match up with
        | Some err => Ok (Some err, net1)
        | None =>
            one <- index (Nodes net1) (Conn.one c) ;;
            other <- index (Nodes net1) (Conn.other c) ;;
            let rev := bool_decide (Conn.One c <> oneId) in
            let err :=
              if rev
              then na_Connect (Node.na other) (Addr (Node.na one))
              else na_Connect (Node.na one) (Addr (Node.na other)) in
            Ok (ErrAdapter <$> err, net1)
        end
  end.

(** [func (self *Network) DidConnect(one, other *adapters.NodeId) error]. *)
Definition DidConnect (one other : NodeId) (net : Network)
  : res (option error * Network) :=
  r <- GetConn one other net ;;
  match r with
  | None => Ok (Some (ErrConnNotExist one other), net)
  | Some i =>
      c <- index (Conns net) i ;;
      if Conn.Up c then Ok (Some (ErrAlreadyConnected one other), net)
      else
        let c' := Conn.mk (Conn.One c) (Conn.Other c) (Conn.one c) (Conn.other c)
                    true (bool_decide (Conn.One c <> one)) in
        Ok (None,
            mkNetwork (nodeMap net) (connMap net) (Nodes net)
              (<[i := c']> (Conns net))
              (events net ++ [mkConnEvent "up" "conn" i]))
  end.

(** A node of the network that is up. *)
Definition node_up (id : NodeId) (net : Network) : Prop :=
  exists i n, getNode id net = Ok (Some i) /\ Nodes net !! i = Some n /\ Node.Up n = true.
End Network.

(** The errors of the node and disconnect methods. *)
Inductive fault :=
| NodeAlreadyAdded (id : NodeId)
| NodeNotExist (id : NodeId)
| NodeAlreadyUp (id : NodeId)
| NodeAlreadyDown (id : NodeId)
| ConnNotExist (one other : NodeId)
| AlreadyDisconnected (one other : NodeId)
| AdapterFault (msg : string).

(** [NodeEvent]: the action and the node (its position in [Nodes]). *)
Record NodeEvent := mkNodeEvent {
  nAction : string;
  nType : string;
  node : nat
}.

(** Events handed to [execute]: a node event, a connection event, or
    anything else. *)
Inductive InEvent :=
| InNode (action : string) (id : NodeId)
| InConn (action : string) (one other : NodeId)
| InOther.

(** What [execute] writes to the log. *)
Inductive LogEntry :=
| LogFault (f : fault)
| LogError (e : error).

(** [NewNetwork]: no node, no connection. *)
Definition NewNetwork : Network := mkNetwork ∅ ∅ [] [] [].

Definition set_Up (up : bool) (n : Node.t) : Node.t :=
  Node.mk (Node.Id n) up (Node.na n).

Definition set_Nodes (ns : list Node.t) (net : Network) : Network :=
  mkNetwork (nodeMap net) (connMap net) ns (Conns net) (events net).

Section Lifecycle.
Variable ConnLabel : NodeId -> NodeId -> string.
(** [self.naf], as [SetNaf] has set it: the adapter made for a node config,
    which holds the id.  (On a network whose [naf] was never set, [NewNode]
    calls a nil function.) *)
Variable naf : NodeId -> NodeAdapter.
(** The remaining methods of the [adapters.NodeAdapter] interface: each
    returns nil or an error. *)
Variable na_Start : NodeAdapter -> option string.
Variable na_Stop : NodeAdapter -> option string.
Variable na_Disconnect : NodeAdapter -> list byte -> option string.

(** [func (self *Network) NewNode(conf *NodeConfig) error]. *)
Definition NewNode (id : NodeId) (net : Network) : option fault * Network :=
  match nodeMap net !! id with
  | Some _ => (Some (NodeAlreadyAdded id), net)
  | None =>
      (None,
       mkNetwork (<[id := length (Nodes net)]> (nodeMap net)) (connMap net)
         (Nodes net ++ [Node.mk id false (naf id)]) (Conns net) (events net))
  end.

Definition GetNode := getNode.

(** [func (self *Network) Start(id *adapters.NodeId) error].  Beside the
    error, the result holds the event posted on the mux. *)
Definition Start (id : NodeId) (net : Network)
  : res (option fault * list NodeEvent * Network) :=
  n <- GetNode id net ;;
  match n with
  | None => Ok (Some (NodeNotExist id), [], net)
  | Some i =>
      node <- index (Nodes net) i ;;
      if Node.Up node then Ok (Some (NodeAlreadyUp id), [], net)
      else
        match na_Start (Node.na node) with
        | Some e => Ok (Some (AdapterFault e), [], net)
        | None =>
            Ok (None, [mkNodeEvent "up" "node" i],
                set_Nodes (<[i := set_Up true node]> (Nodes net)) net)
        end
  end.

(** [func (self *Network) Stop(id *adapters.NodeId) error]. *)
Definition Stop (id : NodeId) (net : Network)
  : res (option fault * list NodeEvent * Network) :=
  n <- GetNode id net ;;
  match n with
  | None => Ok (Some (NodeNotExist id), [], net)
  | Some i =>
      node <- index (Nodes net) i ;;
      if negb (Node.Up node) then Ok (Some (NodeAlreadyDown id), [], net)
      else
        match na_Stop (Node.na node) with
        | Some e => Ok (Some (AdapterFault e), [], net)
        | None =>
            Ok (None, [mkNodeEvent "down" "node" i],
                set_Nodes (<[i := set_Up false node]> (Nodes net)) net)
        end
  end.

(** [func (self *Network) Disconnect(oneId, otherId *adapters.NodeId) error].
    It writes nothing to the network: the closing call of [DidDisconnect]
    is commented out in the source.  In the reversed case the adapter of
    [conn.other] is handed [oneId.Bytes()]. *)
Definition Disconnect (oneId otherId : NodeId) (net : Network) : res (option fault) :=
  r <- GetConn ConnLabel oneId otherId net ;;
  match r with
  | None => Ok (Some (ConnNotExist oneId otherId))
  | Some i =>
      c <- index (Conns net) i ;;
      if negb (Conn.Up c) then Ok (Some (AlreadyDisconnected oneId otherId))
      else if bool_decide (Conn.One c <> oneId)
      then
        other <- index (Nodes net) (Conn.other c) ;;
        Ok (AdapterFault <$> na_Disconnect (Node.na other) oneId)
      else
        one <- index (Nodes net) (Conn.one c) ;;
        Ok (AdapterFault <$> na_Disconnect (Node.na one) otherId)
  end.

(** [func (self *Network) DidDisconnect(one, other *adapters.NodeId) error]. *)
Definition DidDisconnect (one other : NodeId) (net : Network)
  : res (option fault * Network) :=
  r <- GetConn ConnLabel one other net ;;
  match r with
  | None => Ok (Some (ConnNotExist one other), net)
  | Some i =>
      c <- index (Conns net) i ;;
      if negb (Conn.Up c) then Ok (Some (AlreadyDisconnected one other), net)
      else
        let c' := Conn.mk (Conn.One c) (Conn.Other c) (Conn.one c) (Conn.other c)
                    false (bool_decide (Conn.One c <> one)) in
        Ok (None,
            mkNetwork (nodeMap net) (connMap net) (Nodes net)
              (<[i := c']> (Conns net))
              (events net ++ [mkConnEvent "down" "conn" i]))
  end.

Definition log_fault (f : option fault) : list LogEntry :=
  match f with Some f => [LogFault f] | None => [] end.
Definition log_error (e : option error) : list LogEntry :=
  match e with Some e => [LogError e] | None => [] end.

(** [func (self *Network) execute(in *event.TypeMuxEvent)]: errors are
    logged, never returned; an event of another type is a panic.  Any node
    or connection action other than "up" is handled as a "down". *)
Definition execute (ev : InEvent) (net : Network) : res (list LogEntry * Network) :=
  match ev with
  | InNode action id =>
      if String.eqb action "up" then
        let '(e1, net1) := NewNode id net in
        r <- Start id net1 ;;
        let '(e2, _, net2) := r in
        Ok (log_fault e1 ++ log_fault e2, net2)
      else
        r <- Stop id net ;;
        let '(e, _, net1) := r in
        Ok (log_fault e, net1)
  | InConn action one other =>
      if String.eqb action "up" then
        r <- Connect ConnLabel one other net ;;
        let '(e, net1) := r in
        Ok (log_error e, net1)
      else
        e <- Disconnect one other net ;;
        Ok (log_fault e, net)
  | InOther => Crash
  end.

(** The pointers of a network all point somewhere: every index kept in
    [nodeMap], in [connMap] and in a connection is within its slice. *)
Definition well_formed (net : Network) : Prop :=
  (forall id i, nodeMap net !! id = Some i -> i < length (Nodes net))
  /\ (forall l i, connMap net !! l = Some i -> i < length (Conns net))
  /\ (forall i c, Conns net !! i = Some c ->
        Conn.one c < length (Nodes net) /\ Conn.other c < length (Nodes net)).

End Lifecycle.

(** The network together with its [naf] field, which [NewNetwork] leaves
    nil and [SetNaf] sets. *)
Record Harness := mkHarness {
  factory : option (NodeId -> NodeAdapter);
  network : Network
}.

Definition NewHarness : Harness := mkHarness None NewNetwork.

(** [func (self *Network) SetNaf(naf ...)]. *)
Definition SetNaf (naf : NodeId -> NodeAdapter) (h : Harness) : Harness :=
  mkHarness (Some naf) (network h).

(** [NewNode] with the [naf] field as it is: the call [self.naf(conf)]
    comes after the check for a known id, and on a nil [naf] it panics
    (the entry of [nodeMap] has been written by then). *)
Definition NewNode_on (id : NodeId) (h : Harness) : res (option fault * Harness) :=
  match factory h with
  | Some naf =>
      let '(e, net) := NewNode naf id (network h) in Ok (e, mkHarness (factory h) net)
  | None =>
      match nodeMap (network h) !! id with
      | Some _ => Ok (Some (NodeAlreadyAdded id), h)
      | None => Crash
      end
  end.

Section Calls.
Variable ConnLabel : NodeId -> NodeId -> string.
Variable na_Start : NodeAdapter -> option string.
Variable na_Stop : NodeAdapter -> option string.
Variable na_Disconnect : NodeAdapter -> list byte -> option string.

(** A call of one of the methods that change or consult the network. *)
Inductive call :=
| CallSetNaf (naf : NodeId -> NodeAdapter)
| CallNewNode (id : NodeId)
| CallStart (id : NodeId)
| CallStop (id : NodeId)
| CallConnect (one other : NodeId)
| CallDisconnect (one other : NodeId)
| CallDidConnect (one other : NodeId)
| CallDidDisconnect (one other : NodeId).

(** The network after a call, whatever error it returned. *)
Definition after (c : call) (h : Harness) : res Harness :=
  let net := network h in
  let back (net' : Network) := mkHarness (factory h) net' in
  match c with
  | CallSetNaf naf => Ok (SetNaf naf h)
  | CallNewNode id => r <- NewNode_on id h ;; Ok r.2
  | CallStart id => r <- Start na_Start id net ;; Ok (back r.2)
  | CallStop id => r <- Stop na_Stop id net ;; Ok (back r.2)
  | CallConnect a b => r <- Connect ConnLabel a b net ;; Ok (back r.2)
  | CallDisconnect a b => _ <- Disconnect ConnLabel na_Disconnect a b net ;; Ok h
  | CallDidConnect a b => r <- DidConnect ConnLabel a b net ;; Ok (back r.2)
  | CallDidDisconnect a b => r <- DidDisconnect ConnLabel a b net ;; Ok (back r.2)
  end.

Fixpoint after_all (cs : list call) (h : Harness) : res Harness :=
  match cs with
  | [] => Ok h
  | c :: cs' => h' <- after c h ;; after_all cs' h'
  end.
End Calls.

End Simulations.

(** The store of the delivery test that spreads chunks over several
    stores (package [network], request_test.go). *)
Module RoundRobin.

(** [storage.ChunkStore], as far as [roundRobinStore] uses it. *)
Class ChunkStore (S : Type) := store_Put : Storage.loc -> S -> S.

(** [index] is a uint32. *)
Record roundRobinStore (S : Type) := mkRoundRobin {
  index : Z;
  stores : list S
}.
Arguments mkRoundRobin {S} index stores.
Arguments index {S} r.
Arguments stores {S} r.

(** [atomic.AddUint32(&rrs.index, 1)]. *)
Definition AddUint32 (i : Z) : Z := ((i + 1) mod 2 ^ 32)%Z.

(** The position [int(i) % len(rrs.stores)], with a 64-bit [int]. *)
Definition position (i : Z) (n : nat) : nat := Z.to_nat (i mod Z.of_nat n).

(** [func (rrs *roundRobinStore) Put(chunk *storage.Chunk)]; [None] is the
    panic of the division by zero when there is no store. *)
Definition Put {S : Type} `{!ChunkStore S} (chunk : Storage.loc) (rrs : roundRobinStore S)
  : option (roundRobinStore S) :=
  let i := AddUint32 (index rrs) in
  match stores rrs with
  | [] => None
  | _ :: _ =>
      Some (mkRoundRobin i
              (alter (store_Put chunk) (position i (length (stores rrs))) (stores rrs)))
  end.

(** [func (rrs *roundRobinStore) Get(key storage.Key)]: no chunk and an
    error, always. *)
Definition Get {S : Type} (key : list byte) (rrs : roundRobinStore S)
  : option Storage.loc * option string :=
  (None, Some "get not well defined on round robin store"%string).

Fixpoint Put_all {S : Type} `{!ChunkStore S} (chunks : list Storage.loc) (rrs : roundRobinStore S)
  : option (roundRobinStore S) :=
  match chunks with
  | [] => Some rrs
  | c :: cs => rrs' ← Put c rrs; Put_all cs rrs'
  end.

(** A store that keeps what it was given, newest first. *)
#[global] Instance log_store : ChunkStore (list Storage.loc) := fun c l => c :: l.

End RoundRobin.

(** The mock peer pool (package [bzz]). *)
Module Hive.

(** [bzzProtocol] is the pointer to the protocol instance. *)
Record peer := mkPeer {
  bzzProtocol : nat;
  address : list byte;
  addressKey : string
}.

Record hive := mkHive {
  pool : gmap string peer
}.

Definition newHive : hive := mkHive ∅.

Definition addPeer (p : peer) (h : hive) : hive :=
  mkHive (<[addressKey p := p]> (pool h)).

Definition removePeer (p : peer) (h : hive) : hive :=
  mkHive (delete (addressKey p) (pool h)).

(** [getPeers] appends every value of the pool; the order in which Go
    walks a map is not fixed, so only the members of the result matter. *)
Definition getPeers (target : list byte) (h : hive) : list peer :=
  (map_to_list (pool h)).*2.

End Hive.

(** Concrete stores, nodes and networks on which the statements below are
    exercised. *)
Module Fixtures.
Import Storage.

(** A stand-in for the hasher. *)
Definition sampleHash (b : list byte) : list byte := xa5 :: rev b.

(** The 32 bytes 0x01 .. 0x20 of the round-trip scenario. *)
Definition scenarioData : list byte :=
  [x01; x02; x03; x04; x05; x06; x07; x08; x09; x0a; x0b; x0c; x0d; x0e; x0f; x10;
   x11; x12; x13; x14; x15; x16; x17; x18; x19; x1a; x1b; x1c; x1d; x1e; x1f; x20].

(** A chunk with data, no key, and wait group 0. *)
Definition dataChunk : Chunk := mkChunk [] (Some scenarioData) [] 0 (Some 0) NoChan.

(** A pending chunk: a key, no data, and wait group 0. *)
Definition pendingChunk : Chunk := mkChunk [x2a] None [] 0 (Some 0) NoChan.

(** Buffers that end with the payload, and buffers of 16 bytes that are
    zero behind it. *)
Definition tight : list byte -> list byte := fun _ => [].
Definition roomy : list byte -> list byte := fun _ => repeat x00 13.

Definition emptyStore (h : gmap loc Chunk) : State :=
  mkState h (mkMemStore 2 []) (mkDbStore 2 [] tight) ∅ [].

Definition dataState : State := emptyStore {[0 := dataChunk]}.
Definition pendingState : State := emptyStore {[0 := pendingChunk]}.

(** A durable store that holds a 9-byte payload under one key and a 3-byte
    payload under another, in buffers of the given spare capacity; nothing
    is cached. *)
Definition longKey : list byte := [x01].
Definition shortKey : list byte := [x02].
Definition longPayload : list byte := [x10; x27; x00; x00; x00; x00; x00; x00; xff].
Definition shortPayload : list byte := [x01; x02; x03].

Definition durable (behind : list byte -> list byte) : State :=
  mkState ∅ (mkMemStore 2 [])
    (mkDbStore 4 [(longKey, longPayload); (shortKey, shortPayload)] behind) ∅ [].

Definition durableState : State := durable tight.
Definition roomyState : State := durable roomy.

(** A memory store of two entries that holds two pending chunks, and a
    third chunk, with data, that is not in it. *)
Definition waiting (k : list byte) : Chunk := mkChunk k None [] 0 None NoChan.

Definition crowdedState : State :=
  mkState {[0 := waiting [x2a]; 1 := waiting [x2b];
            2 := mkChunk [] (Some scenarioData) [] 0 None NoChan]}
    (mkMemStore 2 [([x2b], 1); ([x2a], 0)]) (mkDbStore 2 [] tight) ∅ [].

(** A durable store of one entry that is full, and a chunk with data under
    another key. *)
Definition otherKey : list byte := [x09].
Definition fullDbState : State :=
  mkState {[0 := mkChunk [x07] (Some scenarioData) [] 0 None NoChan]}
    (mkMemStore 2 []) (mkDbStore 1 [(otherKey, scenarioData)] tight) ∅ [].

(** A retrieve request for the cached key, skipping the check, and one for
    a key that no store holds. *)
Definition hash1 : list byte := sampleHash scenarioData.
Definition hash0 : list byte := [x00; x00].

Definition servedState : State :=
  mkState {[0 := mkChunk hash1 (Some scenarioData) [] 32 None Closed]}
    (mkMemStore 2 [(hash1, 0)]) (mkDbStore 2 [(hash1, scenarioData)] tight) ∅ [].

(** Two started nodes and one that has not started; no peers yet. *)
Definition nodeA : Adapters.NodeID := [x0a].
Definition nodeB : Adapters.NodeID := [x0b].

Definition startedNode : Adapters.SimNode :=
  Adapters.mkSimNode (Some ["bzz"%string]) ∅ [].

Definition twoStarted : Adapters.SimAdapter :=
  Adapters.mkSimAdapter {[nodeA := startedNode; nodeB := startedNode]} 0 [].

(** A label of the unordered pair, smaller id first. *)
Definition sampleConnLabel (a b : Simulations.NodeId) : string :=
  let x := String.string_of_list_byte a in
  let y := String.string_of_list_byte b in
  if String.leb x y then x +:+ "-" +:+ y else y +:+ "-" +:+ x.

(** Two nodes that are up, each behind an RLPx adapter whose urls parse;
    no connection yet. *)
Definition rlpx (addr : list byte) : Simulations.NodeAdapter :=
  Simulations.mkNodeAdapter addr (Simulations.RLPx_Connect (fun _ => true)).

Definition twoUp : Simulations.Network :=
  Simulations.mkNetwork {[nodeA := 0; nodeB := 1]} ∅
    [Simulations.Node.mk nodeA true (rlpx nodeA);
     Simulations.Node.mk nodeB true (rlpx nodeB)] [] [].

End Fixtures.

(** More of the same, for the further properties. *)
Module MoreFixtures.
Import Fixtures.

(** Adapters that always agree. *)
Definition agree : Simulations.NodeAdapter -> option string := fun _ => None.
Definition agree_Disconnect : Simulations.NodeAdapter -> list byte -> option string :=
  fun _ _ => None.

Definition nodeC : list byte := [x0c].

(** Two nodes that are down; no connection. *)
Definition twoDown : Simulations.Network :=
  Simulations.mkNetwork {[nodeA := 0; nodeB := 1]} ∅
    [Simulations.Node.mk nodeA false (rlpx nodeA);
     Simulations.Node.mk nodeB false (rlpx nodeB)] [] [].

(** Two nodes that are up, with their connection, down or up. *)
Definition linked (up : bool) : Simulations.Network :=
  Simulations.mkNetwork {[nodeA := 0; nodeB := 1]}
    {[sampleConnLabel nodeA nodeB := 0]}
    [Simulations.Node.mk nodeA true (rlpx nodeA);
     Simulations.Node.mk nodeB true (rlpx nodeB)]
    [Simulations.Conn.mk nodeA nodeB 0 1 up false] [].

(** A started peer and a caller that has not started. *)
Definition idleNode : Adapters.SimNode := Adapters.mkSimNode None ∅ [].

Definition idleCaller : Adapters.SimAdapter :=
  Adapters.mkSimAdapter {[nodeA := idleNode; nodeB := startedNode]} 0 [].

(** The adapter after [AddPeer] from the first node to the second. *)
Definition peered : Adapters.SimAdapter := (Adapters.AddPeer nodeA nodeB twoStarted).2.

(** A payload whose eighth byte has its top bit set. *)
Definition hugeKey : list byte := [x03].
Definition hugePayload : list byte := [x00; x00; x00; x00; x00; x00; x00; x80].

Definition hugeState : Storage.State :=
  Storage.mkState ∅ (Storage.mkMemStore 2 [])
    (Storage.mkDbStore 4 [(hugeKey, hugePayload)] tight) ∅ [].

(** Three stores that keep what they are given. *)
Definition threeLogs : RoundRobin.roundRobinStore (list Storage.loc) :=
  RoundRobin.mkRoundRobin 0 [[]; []; []].

Definition somePeer : Hive.peer := Hive.mkPeer 0 [x01] "01".

End MoreFixtures.

(** * Properties of the local store *)

Section AssocFacts.
Context {V : Type}.
Implicit Types (k : list byte) (es : list (list byte * V)).

Lemma assoc_lookup_head k (v : V) es : assoc_lookup k ((k, v) :: es) = Some v.
Proof. simpl. by rewrite decide_True. Qed.

Lemma assoc_lookup_remove_ne k k' es :
  k <> k' -> assoc_lookup k (assoc_remove k' es) = assoc_lookup k es.
Proof.
  intros Hne. induction es as [|[k0 v] es IH]; simpl; [done|].
  destruct (decide (k' = k0)) as [->|Hne'].
  - by rewrite decide_False.
  - simpl. by rewrite IH.
Qed.
End AssocFacts.

Section LocalStoreFacts.
Import Storage.
Variable Hash : list byte -> list byte.

(** What [MemStore.Put] guarantees: a chunk that the store admits is found
    under its key. *)
Lemma MemStore_Put_lookup h l c m :
  h !! l = Some c ->
  admits h (Key c) m = true ->
  assoc_lookup (Key c) (memEntries (MemStore_Put h l m)) = Some l.
Proof.
  intros Hl Ha. unfold MemStore_Put. rewrite Hl. unfold admits in Ha.
  destruct (has_room (Key c) m); [apply assoc_lookup_head|].
  cbn in Ha. destruct (forallb _ _); [done|]. apply assoc_lookup_head.
Qed.

(** A store that does not admit the chunk is left as it was. *)
Lemma MemStore_Put_refused h l c m :
  h !! l = Some c ->
  admits h (Key c) m = false ->
  MemStore_Put h l m = m.
Proof.
  intros Hl Ha. unfold MemStore_Put. rewrite Hl. unfold admits in Ha.
  destruct (has_room (Key c) m); [done|].
  cbn in Ha. by destruct (forallb _ _).
Qed.

(** A new chunk with data does not change which chunks are pending. *)
Lemma pending_insert_fresh h l c d l' :
  h !! l = None -> SData c = Some d ->
  pending (<[l := c]> h) l' = pending h l'.
Proof.
  intros Hl Hd. unfold pending. destruct (decide (l = l')) as [<-|Hne].
  - by rewrite lookup_insert_eq, Hl, Hd.
  - by rewrite lookup_insert_ne.
Qed.

Lemma admits_insert_fresh h l c d k m :
  h !! l = None -> SData c = Some d ->
  admits (<[l := c]> h) k m = admits h k m.
Proof.
  intros Hl Hd. unfold admits. f_equal. f_equal.
  induction (assoc_remove k (memEntries m)) as [|e es IH]; [done|].
  cbn [forallb]. by rewrite IH, (pending_insert_fresh h l c d).
Qed.

Lemma MemStore_Get_hit k m l :
  assoc_lookup k (memEntries m) = Some l ->
  MemStore_Get k m =
    (Some l, mkMemStore (memCapacity m) ((k, l) :: assoc_remove k (memEntries m))).
Proof. intros H. unfold MemStore_Get. by rewrite H. Qed.

Lemma MemStore_Get_miss k m :
  assoc_lookup k (memEntries m) = None -> MemStore_Get k m = (None, m).
Proof. intros H. unfold MemStore_Get. by rewrite H. Qed.

(** A lookup in the memory store only refreshes the entry it finds: every
    key is held afterwards exactly as before. *)
Lemma MemStore_Get_keeps k k' m :
  assoc_lookup k' (memEntries (MemStore_Get k m).2) = assoc_lookup k' (memEntries m).
Proof.
  unfold MemStore_Get. destruct (assoc_lookup k (memEntries m)) as [l|] eqn:Hk; [|done].
  cbn. destruct (decide (k' = k)) as [->|Hne]; [done|].
  by apply assoc_lookup_remove_ne.
Qed.

(** The state that [Put] returns, field by field. *)
Lemma Put_unfold s chunk c :
  heap s !! chunk = Some c ->
  exists c2,
    Key c2 = (if length (Key c) =? 0 then Hash (bytes_of (SData c)) else Key c)
    /\ SData c2 = SData c /\ Size c2 = Size c /\ wg c2 = wg c
    /\ dbStored c2 = Open
    /\ Put Hash chunk s =
         Some (mkState (<[chunk := c2]> (heap s))
                 (MemStore_Put (<[chunk := c2]> (heap s)) chunk (memStore s))
                 (dbStore s)
                 (match wg c with
                  | Some g => <[g := (counter g s + 1)%N]> (waitGroups s)
                  | None => waitGroups s
                  end)
                 (goroutines s ++ match SData c with Some _ => [chunk] | None => [] end)).
Proof.
  intros Hc. unfold Put. rewrite Hc.
  destruct c as [k d sp sz g sig]. simpl.
  destruct (length k =? 0); simpl;
    (eexists (mkChunk _ d sp sz g Open); repeat split;
     destruct g, d; simpl; rewrite ?app_nil_r; reflexivity).
Qed.

Lemma foreground_kept_refl s : foreground_kept s s.
Proof.
  split; [done|]. intros l c Hc. exists (dbStored c). by destruct c.
Qed.

Lemma foreground_kept_trans s1 s2 s3 :
  foreground_kept s1 s2 -> foreground_kept s2 s3 -> foreground_kept s1 s3.
Proof.
  intros [Hm1 Hh1] [Hm2 Hh2]. split; [congruence|].
  intros l c Hc. destruct (Hh1 l c Hc) as [d Hd].
  destruct (Hh2 l _ Hd) as [d' Hd']. exists d'. by rewrite Hd'.
Qed.

Lemma DbStore_Put_kept ok l s : foreground_kept s (DbStore_Put ok l s).
Proof.
  unfold DbStore_Put. destruct (heap s !! l) as [c|] eqn:Hl;
    [|apply foreground_kept_refl].
  split; [done|]. intros l' c' Hc'. simpl.
  destruct (decide (l = l')) as [<-|Hne].
  - rewrite lookup_insert_eq. exists Closed. congruence.
  - rewrite lookup_insert_ne by done. exists (dbStored c'). by destruct c'.
Qed.

Lemma wg_Done_kept g s s' : wg_Done g s = Some s' -> foreground_kept s s'.
Proof.
  unfold wg_Done. destruct (_ =? _)%N; [done|]. intros [= <-].
  split; [done|]. intros l c Hc. exists (dbStored c). by destruct c.
Qed.

Lemma run_goroutine_kept ok l s s' :
  run_goroutine ok l s = Some s' -> foreground_kept s s'.
Proof.
  unfold run_goroutine. intros H.
  destruct (heap (DbStore_Put ok l s) !! l) as [c|]; [|done].
  destruct (wg c) as [g|].
  - eapply foreground_kept_trans; [apply DbStore_Put_kept|by eapply wg_Done_kept].
  - injection H as <-. apply DbStore_Put_kept.
Qed.

Lemma step_kept s s' : step s s' -> foreground_kept s s'.
Proof.
  intros (i & ok & H). unfold run_nth in H.
  destruct (goroutines s !! i) as [l|]; [|done].
  apply run_goroutine_kept in H. destruct H as [Hm Hh]. by split.
Qed.

Lemma steps_kept s s' : rtc step s s' -> foreground_kept s s'.
Proof.
  induction 1 as [|s1 s2 s3 H12 _ IH]; [apply foreground_kept_refl|].
  eapply foreground_kept_trans; [by apply step_kept|done].
Qed.
Lemma DbStore_Put_unfold ok l s c :
  heap s !! l = Some c ->
  DbStore_Put ok l s =
    mkState (<[l := set_dbStored Closed c]> (heap s)) (memStore s)
      (if ok then db_write (Key c) (bytes_of (SData c)) (dbStore s) else dbStore s)
      (waitGroups s) (goroutines s).
Proof. intros H. unfold DbStore_Put. by rewrite H. Qed.

Lemma run_goroutine_unfold ok l s c :
  heap s !! l = Some c ->
  run_goroutine ok l s =
    match wg c with
    | Some g => wg_Done g (DbStore_Put ok l s)
    | None => Some (DbStore_Put ok l s)
    end.
Proof.
  intros H. unfold run_goroutine. rewrite (DbStore_Put_unfold ok l s c H).
  cbn [heap]. by rewrite lookup_insert_eq.
Qed.

(** The goroutine started last is one of those that may run next. *)
Lemma run_nth_last ok h m d w gs l :
  run_nth (length gs) ok (mkState h m d w (gs ++ [l])) =
    run_goroutine ok l (mkState h m d w gs).
Proof.
  unfold run_nth. cbn [goroutines].
  rewrite lookup_app_r, Nat.sub_diag by done. cbn [lookup list_lookup].
  unfold set_goroutines. cbn [heap memStore dbStore waitGroups].
  by rewrite delete_middle, app_nil_r.
Qed.

(** The goroutine that ran with a write that succeeded: whose it was, and
    what it wrote. *)
Lemma run_nth_wrote i s s_ok :
  run_nth i true s = Some s_ok ->
  exists l c,
    goroutines s !! i = Some l /\ heap s !! l = Some c
    /\ dbStore s_ok = db_write (Key c) (bytes_of (SData c)) (dbStore s).
Proof.
  unfold run_nth. destruct (goroutines s !! i) as [l|]; [|done].
  set (s0 := set_goroutines _ s).
  destruct (heap s !! l) as [c|] eqn:Hl.
  - assert (heap s0 !! l = Some c) as Hl0 by done.
    rewrite (run_goroutine_unfold _ l s0 c Hl0), (DbStore_Put_unfold _ l s0 c Hl0).
    intros H. exists l, c. split; [done|]. split; [done|].
    destruct (wg c) as [g|].
    + unfold wg_Done in H. destruct (_ =? _)%N; [done|]. by injection H as <-.
    + by injection H as <-.
  - unfold run_goroutine, DbStore_Put. assert (heap s0 !! l = None) as Hl0 by done.
    by rewrite Hl0, Hl0.
Qed.

Lemma removelast_lookup {V : Type} k (es : list (list byte * V)) :
  assoc_lookup k (removelast es) <> assoc_lookup k es ->
  exists v, last es = Some (k, v).
Proof.
  induction es as [|[k' v] es IH]; [done|].
  destruct es as [|e es'].
  - cbn. destruct (decide (k = k')) as [->|]; [eauto|done].
  - change (removelast ((k', v) :: e :: es')) with ((k', v) :: removelast (e :: es')).
    rewrite last_cons_cons. cbn [assoc_lookup].
    destruct (decide (k = k')); [done|]. apply IH.
Qed.

(** A write to the durable store changes what is held under the key
    written and, when the store is full, under the key of its oldest entry;
    nothing else. *)
Lemma db_write_lookup k k0 v d :
  assoc_lookup k (dbEntries (db_write k0 v d)) <> assoc_lookup k (dbEntries d) ->
  k = k0
  \/ (dbCapacity d <= length (dbEntries d) /\ exists v', last (dbEntries d) = Some (k, v')).
Proof.
  intros H. destruct (decide (k = k0)) as [|Hne]; [by left|right].
  unfold db_write in H. destruct (assoc_lookup k0 (dbEntries d)) as [v0|].
  - cbn in H. rewrite decide_False, assoc_lookup_remove_ne in H by done. done.
  - cbn in H. rewrite decide_False in H by done.
    destruct (Nat.leb_spec (dbCapacity d) (length (dbEntries d))) as [Hle|]; [|done].
    split; [done|]. by apply removelast_lookup.
Qed.

Lemma db_write_dbSpare k v d : dbSpare (db_write k v d) = dbSpare d.
Proof. unfold db_write. by destruct (assoc_lookup k (dbEntries d)). Qed.

(** What [Get] returns is decided by the chunks, the memory store and what
    the durable store holds under the key. *)
Lemma Get_result_reads k s s' :
  heap s' = heap s -> memStore s' = memStore s ->
  dbSpare (dbStore s') = dbSpare (dbStore s) ->
  assoc_lookup k (dbEntries (dbStore s')) = assoc_lookup k (dbEntries (dbStore s)) ->
  (Get k s').1 = (Get k s).1.
Proof.
  intros Hh Hm Hsp Hd. unfold Get. rewrite Hm.
  destruct (MemStore_Get k (memStore s)) as [[l|] m]; [done|].
  unfold DbStore_Get. rewrite Hd, Hh, Hsp.
  destruct (assoc_lookup k (dbEntries (dbStore s))) as [v|]; [|done].
  cbn [heap set_heap set_dbStore]. rewrite !lookup_insert_eq. cbn [SData spare].
  by destruct (slice_0_8 _ _).
Qed.
End LocalStoreFacts.

(** The memory store as the spec bounds it: it never grows beyond its
    capacity, and an entry that is pending is never evicted. *)
Section MemStoreBounds.
Import Storage.

Lemma assoc_remove_length {V : Type} k (es : list (list byte * V)) :
  length (assoc_remove k es) <= length es.
Proof.
  induction es as [|[k' v] es IH]; cbn; [done|].
  destruct (decide (k = k')); cbn; lia.
Qed.

Lemma assoc_remove_In {V : Type} k k' (v : V) (es : list (list byte * V)) :
  k' <> k -> In (k', v) es -> In (k', v) (assoc_remove k es).
Proof.
  intros Hne. induction es as [|[k0 v0] es IH]; cbn; [done|].
  intros [E|Hin].
  - injection E as -> ->. rewrite decide_False by done. by left.
  - destruct (decide (k = k0)); [by apply IH|right; by apply IH].
Qed.

Lemma drop_first_evictable_length {V : Type} (keep : V -> bool) (l : list (list byte * V)) :
  forallb (fun e => keep e.2) l = false ->
  S (length (drop_first_evictable keep l)) = length l.
Proof.
  induction l as [|e l IH]; cbn; [done|].
  destruct (keep e.2); cbn; [|done]. intros H. by rewrite IH.
Qed.

Lemma drop_first_evictable_In {V : Type} (keep : V -> bool) (l : list (list byte * V)) e :
  keep e.2 = true -> In e l -> In e (drop_first_evictable keep l).
Proof.
  intros Hk. induction l as [|e' l IH]; cbn; [done|].
  intros [->|Hin].
  - rewrite Hk. by left.
  - destruct (keep e'.2); [right; by apply IH|done].
Qed.

Lemma forallb_rev {A : Type} (f : A -> bool) (l : list A) :
  forallb f (rev l) = forallb f l.
Proof.
  induction l as [|x l IH]; cbn; [done|].
  rewrite forallb_app, IH. cbn. rewrite andb_true_r. apply andb_comm.
Qed.

Lemma evict_one_length {V : Type} (keep : V -> bool) (es : list (list byte * V)) :
  forallb (fun e => keep e.2) es = false ->
  S (length (evict_one keep es)) = length es.
Proof.
  intros H. unfold evict_one. rewrite length_rev.
  rewrite drop_first_evictable_length by (by rewrite forallb_rev).
  apply length_rev.
Qed.

Lemma evict_one_In {V : Type} (keep : V -> bool) (es : list (list byte * V)) e :
  keep e.2 = true -> In e es -> In e (evict_one keep es).
Proof.
  intros Hk Hin. unfold evict_one. apply in_rev. rewrite rev_involutive.
  apply drop_first_evictable_In; [done|]. by apply in_rev in Hin.
Qed.

Lemma MemStore_Put_bounded h l m :
  0 < memCapacity m ->
  length (memEntries m) <= memCapacity m ->
  length (memEntries (MemStore_Put h l m)) <= memCapacity (MemStore_Put h l m).
Proof.
  intros Hpos Hle. unfold MemStore_Put. destruct (h !! l) as [c|]; [|done].
  pose proof (assoc_remove_length (Key c) (memEntries m)) as Hrm.
  unfold has_room.
  destruct (Nat.eqb_spec (memCapacity m) 0) as [|_]; [lia|]. cbn [orb].
  destruct (Nat.ltb_spec (length (assoc_remove (Key c) (memEntries m))) (memCapacity m))
    as [Hlt|Hge]; [cbn; lia|].
  destruct (forallb _ _) eqn:Hall; [done|].
  cbn. rewrite (evict_one_length _ _ Hall). lia.
Qed.

Lemma MemStore_Put_keeps_pending h l c m k' l' :
  h !! l = Some c -> k' <> Key c ->
  In (k', l') (memEntries m) -> pending h l' = true ->
  In (k', l') (memEntries (MemStore_Put h l m)).
Proof.
  intros Hl Hne Hin Hp. unfold MemStore_Put. rewrite Hl.
  pose proof (assoc_remove_In (Key c) k' l' (memEntries m) Hne Hin) as Hin'.
  destruct (has_room _ _); [by right|].
  destruct (forallb _ _); [done|].
  right. by apply (evict_one_In (pending h) _ (k', l')).
Qed.
End MemStoreBounds.

Section LocalStorePut.
Import Storage.
Variable Hash : list byte -> list byte.

(** C3.  After [LocalStore.Put] of a chunk that came with an empty Key and
    non-nil SData, the chunk's Key is the hash of its SData; a chunk that
    came with a non-empty Key keeps it.  The payload itself is untouched. *)
Theorem Put_computes_missing_key (s : State) (chunk : loc) (c : Chunk) :
  heap s !! chunk = Some c ->
  exists s1 c1,
    Put Hash chunk s = Some s1 /\ heap s1 !! chunk = Some c1
    /\ SData c1 = SData c
    /\ (Key c = [] -> forall d, SData c = Some d -> Key c1 = Hash d)
    /\ (Key c <> [] -> Key c1 = Key c).
Proof.
  intros Hc. destruct (Put_unfold Hash s chunk c Hc) as (c2 & Hk & Hd & _ & _ & _ & HP).
  eexists _, c2. split; [exact HP|]. simpl. rewrite lookup_insert_eq.
  repeat split; [done| |].
  - intros Hnil d Hsd. rewrite Hk, Hnil, Hsd. done.
  - intros Hne. rewrite Hk. destruct (Key c); [done|done].
Qed.

(** C4.  [Put] never touches the durable store itself, and it starts the
    goroutine that writes to it exactly when SData is non-nil: for a
    pending chunk (SData nil) the durable store and the list of goroutines
    are as before, so nothing will write the chunk; for a chunk with data
    one goroutine, for that chunk, is added. *)
Theorem Put_pending_not_forwarded (s : State) (chunk : loc) (c : Chunk) :
  heap s !! chunk = Some c ->
  exists s1,
    Put Hash chunk s = Some s1
    /\ dbStore s1 = dbStore s
    /\ (SData c = None -> goroutines s1 = goroutines s)
    /\ (forall d, SData c = Some d -> goroutines s1 = goroutines s ++ [chunk]).
Proof.
  intros Hc. destruct (Put_unfold Hash s chunk c Hc) as (c2 & _ & _ & _ & _ & _ & HP).
  eexists. split; [exact HP|]. simpl. repeat split.
  - intros ->. apply app_nil_r.
  - by intros d ->.
Qed.

(** C10.  For a chunk with a wait group, [Put] adds exactly one to its
    counter.  With data, the goroutine it starts takes that one off again
    when it runs (whatever the outcome of the write); for a pending chunk
    no goroutine is started and the counter stays one higher. *)
Theorem Put_wait_group (s : State) (chunk : loc) (c : Chunk) (g : nat) :
  heap s !! chunk = Some c ->
  wg c = Some g ->
  exists s1,
    Put Hash chunk s = Some s1
    /\ counter g s1 = (counter g s + 1)%N
    /\ (SData c = None -> goroutines s1 = goroutines s)
    /\ (forall d ok, SData c = Some d ->
          goroutines s1 = goroutines s ++ [chunk]
          /\ exists s2, run_nth (length (goroutines s)) ok s1 = Some s2
                        /\ goroutines s2 = goroutines s
                        /\ counter g s2 = counter g s).
Proof.
  intros Hc Hg.
  destruct (Put_unfold Hash s chunk c Hc) as (c2 & _ & _ & _ & Hg2 & _ & HP).
  rewrite Hg in HP, Hg2.
  eexists. split; [exact HP|].
  split; [unfold counter; simpl; by rewrite lookup_insert_eq|].
  split; [intros ->; apply app_nil_r|].
  intros d ok Hd. rewrite Hd. split; [done|].
  rewrite run_nth_last.
  erewrite run_goroutine_unfold by (cbn; apply lookup_insert_eq).
  rewrite Hg2.
  erewrite DbStore_Put_unfold by (cbn; apply lookup_insert_eq).
  unfold wg_Done, counter. cbn [waitGroups]. rewrite lookup_insert_eq.
  cbn [default from_option id].
  destruct (N.eqb_spec (default 0%N (waitGroups s !! g) + 1) 0) as [E|_]; [lia|].
  eexists. split; [reflexivity|]. cbn.
  split; [done|]. rewrite lookup_insert_eq. cbn. lia.
Qed.
End LocalStorePut.

Section LocalStoreRoundTrip.
Import Storage.
Variable Hash : list byte -> list byte.

Lemma wg_Done_heap g s s' : wg_Done g s = Some s' -> heap s' = heap s /\ dbStore s' = dbStore s.
Proof. unfold wg_Done. destruct (_ =? _)%N; [done|]. by intros [= <-]. Qed.

(** A goroutine that runs closes the durability signal of its chunk. *)
Lemma run_goroutine_stored ok l s s' :
  run_goroutine ok l s = Some s' -> stored l s'.
Proof.
  unfold run_goroutine, stored. intros H.
  destruct (heap (DbStore_Put ok l s) !! l) as [c|] eqn:Hl; [|done].
  assert (dbStored c = Closed) as Hclosed.
  { unfold DbStore_Put in Hl. destruct (heap s !! l) as [c0|] eqn:H0.
    - cbn in Hl. rewrite lookup_insert_eq in Hl. by injection Hl as <-.
    - congruence. }
  destruct (wg c) as [g|].
  - apply wg_Done_heap in H as [-> _]. eauto.
  - injection H as <-. eauto.
Qed.

(** The goroutine that [Put] has just started can always run: the counter
    it takes one off is the one [Put] has added one to. *)
Lemma Put_goroutine_runs s chunk c d ok :
  heap s !! chunk = Some c -> SData c = Some d ->
  exists s1 s2, Put Hash chunk s = Some s1
                /\ run_nth (length (goroutines s)) ok s1 = Some s2.
Proof.
  intros Hc Hd.
  destruct (Put_unfold Hash s chunk c Hc) as (c2 & _ & _ & _ & Hg2 & _ & HP).
  rewrite Hd in HP.
  destruct (wg c) as [g|]; (eexists _, _; split; [exact HP|]);
    rewrite run_nth_last;
    (erewrite run_goroutine_unfold by (cbn; apply lookup_insert_eq));
    rewrite Hg2; [|reflexivity].
  erewrite DbStore_Put_unfold by (cbn; apply lookup_insert_eq).
  unfold wg_Done, counter. cbn [waitGroups]. rewrite lookup_insert_eq.
  cbn [default from_option id].
  destruct (N.eqb_spec (default 0%N (waitGroups s !! g) + 1) 0) as [E|_]; [lia|].
  reflexivity.
Qed.


Lemma run_nth_outcome i s s_ok s_fail :
  run_nth i true s = Some s_ok ->
  run_nth i false s = Some s_fail ->
  s_fail = set_dbStore (dbStore s) s_ok.
Proof.
  unfold run_nth. destruct (goroutines s !! i) as [l|]; [|done].
  set (s0 := set_goroutines _ s).
  assert (dbStore s = dbStore s0) as -> by done.
  destruct (heap s0 !! l) as [c|] eqn:Hl.
  - rewrite !(run_goroutine_unfold _ l s0 c Hl), !(DbStore_Put_unfold _ l s0 c Hl).
    destruct (wg c) as [g|].
    + unfold wg_Done, counter. cbn [waitGroups].
      destruct (_ =? _)%N; [done|]. by intros [= <-] [= <-].
    + by intros [= <-] [= <-].
  - unfold run_goroutine, DbStore_Put. by rewrite Hl, Hl.
Qed.

End LocalStoreRoundTrip.

Section LocalStoreGet.
Import Storage.

Lemma DbStore_Get_hit key s v :
  assoc_lookup key (dbEntries (dbStore s)) = Some v ->
  DbStore_Get key s =
    (inl (fresh (dom (heap s))),
     set_heap (<[fresh (dom (heap s)) :=
                   mkChunk key (Some v) (dbSpare (dbStore s) key) 0 None NoChan]> (heap s))
       (set_dbStore
          (mkDbStore (dbCapacity (dbStore s))
             ((key, v) :: assoc_remove key (dbEntries (dbStore s)))
             (dbSpare (dbStore s))) s)).
Proof. intros H. unfold DbStore_Get. by rewrite H. Qed.

Lemma slice_0_8_within v behind :
  8 <= length v + length behind ->
  slice_0_8 (Some v) behind = Some (take 8 (v ++ behind)).
Proof. intros H. unfold slice_0_8. by rewrite (proj2 (Nat.leb_le _ _) H). Qed.

Lemma slice_0_8_long v behind :
  8 <= length v -> slice_0_8 (Some v) behind = Some (take 8 v).
Proof.
  intros H. rewrite slice_0_8_within by lia. by rewrite take_app_le.
Qed.

Lemma slice_0_8_beyond v behind :
  length v + length behind < 8 -> slice_0_8 (Some v) behind = None.
Proof. intros H. unfold slice_0_8. by rewrite (proj2 (Nat.leb_gt _ _) H). Qed.

(** The four ways of [Get]. *)
Lemma Get_memory_hit key s l :
  assoc_lookup key (memEntries (memStore s)) = Some l ->
  exists m, Get key s = (Found l, set_memStore m s).
Proof. intros Hl. unfold Get. rewrite (MemStore_Get_hit _ _ _ Hl). eauto. Qed.

Lemma Get_not_found key s :
  assoc_lookup key (memEntries (memStore s)) = None ->
  assoc_lookup key (dbEntries (dbStore s)) = None ->
  Get key s = (Failed notFound, s).
Proof.
  intros Hm Hd. unfold Get, DbStore_Get.
  by rewrite (MemStore_Get_miss _ _ Hm), Hd.
Qed.

Lemma Get_promotes key s v :
  assoc_lookup key (memEntries (memStore s)) = None ->
  assoc_lookup key (dbEntries (dbStore s)) = Some v ->
  8 <= length v + length (dbSpare (dbStore s) key) ->
  exists l s2 c,
    Get key s = (Found l, s2)
    /\ heap s !! l = None
    /\ heap s2 !! l = Some c
    /\ Key c = key /\ SData c = Some v
    /\ Size c = int64 (Uint64 (take 8 (v ++ dbSpare (dbStore s) key)))
    /\ (8 <= length v -> Size c = int64 (Uint64 (take 8 v)))
    /\ memStore s2 = MemStore_Put (heap s2) l (memStore s)
    /\ (admits (heap s) key (memStore s) = true ->
        assoc_lookup key (memEntries (memStore s2)) = Some l).
Proof.
  intros Hm Hd Hlen. unfold Get.
  rewrite (MemStore_Get_miss _ _ Hm), (DbStore_Get_hit _ _ _ Hd).
  cbn [heap set_heap set_dbStore]. rewrite lookup_insert_eq.
  cbn [SData spare]. rewrite (slice_0_8_within _ _ Hlen).
  assert (heap s !! fresh (dom (heap s)) = None) as Hfresh
    by apply not_elem_of_dom, is_fresh.
  eexists _, _, _. split; [reflexivity|].
  split; [exact Hfresh|].
  cbn [heap set_heap set_memStore]. rewrite lookup_insert_eq.
  split; [reflexivity|]. split; [reflexivity|]. split; [reflexivity|].
  split; [reflexivity|].
  split; [intros H8; cbn [Size set_Size]; by rewrite take_app_le|].
  split; [reflexivity|].
  intros Hadm. cbn [memStore set_memStore].
  set (c := set_Size _ _).
  apply (MemStore_Put_lookup _ _ c); [apply lookup_insert_eq|].
  rewrite insert_insert_eq.
  by erewrite admits_insert_fresh.
Qed.

Lemma Get_slice_panics key s v :
  assoc_lookup key (memEntries (memStore s)) = None ->
  assoc_lookup key (dbEntries (dbStore s)) = Some v ->
  length v + length (dbSpare (dbStore s) key) < 8 ->
  exists s1, Get key s = (Panic, s1) /\ memStore s1 = memStore s.
Proof.
  intros Hm Hd Hlen. unfold Get.
  rewrite (MemStore_Get_miss _ _ Hm), (DbStore_Get_hit _ _ _ Hd).
  cbn [heap set_heap set_dbStore]. rewrite lookup_insert_eq.
  cbn [SData spare]. rewrite (slice_0_8_beyond _ _ Hlen).
  eauto.
Qed.

(** C2, as the code has it.  [Get] tries the memory store first and
    returns its chunk on a hit.  On a miss it tries the durable store: when
    that misses too, [Get] returns [notFound], no chunk, and changes
    nothing.  When it hits on a payload whose slice has a capacity of 8 or
    more, [Get] returns a new chunk with that key and payload, whose Size
    is the little-endian integer of the first 8 bytes of the slice's
    backing array, which are the first 8 bytes of the payload when it has
    that many; the chunk has been handed to the memory store, which holds
    it under the key when it admits it.  When the capacity is below 8 the
    slice expression panics: no chunk is returned and the memory store is
    as before. *)
Theorem Get_read_through (key : list byte) (s : State) :
  (forall l, assoc_lookup key (memEntries (memStore s)) = Some l ->
     exists m, Get key s = (Found l, set_memStore m s))
  /\ (assoc_lookup key (memEntries (memStore s)) = None ->
      assoc_lookup key (dbEntries (dbStore s)) = None ->
      Get key s = (Failed notFound, s))
  /\ (forall v,
        assoc_lookup key (memEntries (memStore s)) = None ->
        assoc_lookup key (dbEntries (dbStore s)) = Some v ->
        8 <= length v + length (dbSpare (dbStore s) key) ->
        exists l s2 c,
          Get key s = (Found l, s2)
          /\ heap s !! l = None
          /\ heap s2 !! l = Some c
          /\ Key c = key /\ SData c = Some v
          /\ Size c = int64 (Uint64 (take 8 (v ++ dbSpare (dbStore s) key)))
          /\ (8 <= length v -> Size c = int64 (Uint64 (take 8 v)))
          /\ memStore s2 = MemStore_Put (heap s2) l (memStore s)
          /\ (admits (heap s) key (memStore s) = true ->
              assoc_lookup key (memEntries (memStore s2)) = Some l))
  /\ (forall v,
        assoc_lookup key (memEntries (memStore s)) = None ->
        assoc_lookup key (dbEntries (dbStore s)) = Some v ->
        length v + length (dbSpare (dbStore s) key) < 8 ->
        exists s1, Get key s = (Panic, s1) /\ memStore s1 = memStore s).
Proof.
  split; [|split; [|split]].
  - apply Get_memory_hit.
  - apply Get_not_found.
  - intros v. apply Get_promotes.
  - intros v. apply Get_slice_panics.
Qed.
End LocalStoreGet.

(** ** The local store on concrete chunks *)

Section LocalStoreExamples.
Import Storage Fixtures.

Lemma Put_computes_missing_key_witness :
  exists s1 c1,
    Put sampleHash 0 dataState = Some s1 /\ heap s1 !! 0 = Some c1
    /\ Key c1 = sampleHash scenarioData.
Proof.
  destruct (Put_computes_missing_key sampleHash dataState 0 dataChunk eq_refl)
    as (s1 & c1 & HP & Hc1 & _ & Hk & _).
  exists s1, c1. split; [exact HP|]. split; [exact Hc1|].
  exact (Hk eq_refl scenarioData eq_refl).
Defined.

Lemma Put_pending_not_forwarded_witness :
  exists s1,
    Put sampleHash 0 pendingState = Some s1
    /\ dbStore s1 = dbStore pendingState
    /\ goroutines s1 = [].
Proof.
  destruct (Put_pending_not_forwarded sampleHash pendingState 0 pendingChunk eq_refl)
    as (s1 & HP & Hdb & Hg & _).
  exists s1. split; [exact HP|]. split; [exact Hdb|]. exact (Hg eq_refl).
Defined.

Lemma Put_wait_group_witness :
  exists s1,
    Put sampleHash 0 pendingState = Some s1
    /\ counter 0 s1 = 1%N /\ goroutines s1 = [].
Proof.
  destruct (Put_wait_group sampleHash pendingState 0 pendingChunk 0 eq_refl eq_refl)
    as (s1 & HP & Hcnt & Hg & _).
  exists s1. split; [exact HP|]. split; [exact Hcnt|]. exact (Hg eq_refl).
Defined.





Lemma Get_read_through_witness :
  exists l s2 c,
    Get longKey durableState = (Found l, s2)
    /\ heap s2 !! l = Some c
    /\ SData c = Some longPayload
    /\ Size c = 10000%Z
    /\ assoc_lookup longKey (memEntries (memStore s2)) = Some l.
Proof.
  destruct (Get_read_through longKey durableState) as (_ & _ & Hhit & _).
  destruct (Hhit longPayload eq_refl eq_refl)
    as (l & s2 & c & HG & _ & Hc & _ & Hd & _ & Hsz & _ & Hm).
  { apply Nat.leb_le. reflexivity. }
  exists l, s2, c. split; [exact HG|]. split; [exact Hc|]. split; [exact Hd|].
  split; [|exact (Hm eq_refl)].
  apply Hsz. apply Nat.leb_le. reflexivity.
Defined.

(** A payload of 3 bytes in the durable store.  In a buffer that ends with
    the payload, the lookup hits and [Get] panics instead of returning the
    chunk: no Size is set and nothing enters the memory store.  In a buffer
    of 16 bytes [Get] returns a chunk, and its Size is read off 8 bytes of
    which only the first 3 are the chunk's SData. *)
Lemma Get_short_payload_panics :
  assoc_lookup shortKey (memEntries (memStore durableState)) = None
  /\ assoc_lookup shortKey (dbEntries (dbStore durableState)) = Some shortPayload
  /\ (Get shortKey durableState).1 = Panic
  /\ memEntries (memStore (Get shortKey durableState).2) = []
  /\ ~ (exists l s2, Get shortKey durableState = (Found l, s2))
  /\ (exists l c, (Get shortKey roomyState).1 = Found l
                  /\ heap (Get shortKey roomyState).2 !! l = Some c
                  /\ SData c = Some shortPayload /\ Size c = 197121%Z).
Proof.
  repeat split; try reflexivity.
  - intros (l & s2 & H). apply (f_equal fst) in H. vm_compute in H. discriminate H.
  - exists 0, (mkChunk shortKey (Some shortPayload) (repeat x00 13) 197121 None NoChan).
    repeat split; reflexivity.
Qed.

(** The failure of a durable write shows in a later [Get]: with a memory
    store of one entry, a chunk whose write failed and that has since been
    evicted is [notFound]; had the write succeeded it would be found. *)
Lemma failed_write_surfaces_in_Get :
  let tiny := mkState {[0 := dataChunk;
                        1 := mkChunk [x07] (Some scenarioData) [] 0 None NoChan]}
                (mkMemStore 1 []) (mkDbStore 2 [] tight) ∅ [] in
  let after (ok : bool) :=
    s1 ← Put sampleHash 0 tiny; s2 ← run_nth 0 ok s1; s3 ← Put sampleHash 1 s2;
    Some (Get (sampleHash scenarioData) s3).1 in
  after false = Some (Failed notFound) /\ after true = Some (Found 2).
Proof. split; vm_compute; reflexivity. Qed.
End LocalStoreExamples.

(** * Properties of the retrieval server *)

Section RetrievalServer.
Import Storage Retrieval.
Variable retrieveRequestStream : string.


End RetrievalServer.

Section RetrievalExamples.
Import Storage Retrieval Fixtures.





(** The retrieve scenario end to end: the chunk is put, its durable write
    runs, and a request for its key that skips the check is answered with
    the chunk's data. *)
Lemma scenario_put_then_retrieve :
  (s1 ← Put sampleHash 0 dataState; s2 ← run_nth 0 true s1;
   Some (handleRetrieveRequestMsg "RETRIEVE_REQUEST" (mkRetrieveRequest hash1 true) s2).1)
  = Some (Sent [ChunkDelivery (mkChunkDelivery hash1 (Some scenarioData))]).
Proof. vm_compute. reflexivity. Qed.
End RetrievalExamples.

(** * Properties of the in-process node adapter *)

Section SimNodeAddPeer.
Import Adapters.

Lemma RunProtocol_started self peer rw a n protocol rest :
  nodes a !! self = Some n ->
  running n = Some (protocol :: rest) ->
  RunProtocol self peer rw a =
    (Returned,
     mkSimAdapter (nodes a) (pipes a)
       (goroutines a ++ [Dropper self rw; Runner self peer protocol rw])).
Proof.
  intros Hn Hr. unfold RunProtocol. cbn [nodes spawn]. rewrite Hn, Hr.
  unfold spawn. cbn. by rewrite <- app_assoc.
Qed.

(** C9, as the code has it.  On a started node, [AddPeer] of another
    started node that is not yet a peer returns after it has made one pipe,
    registered the end it hands to the peer's runner in its own peer table
    under the peer's id, and started a protocol runner on each node, one
    per pipe end; each runner begins by sending a peer add event, naming
    the other node, on its own node's feed.  The peer's own peer table is
    left as it was: only the calling side registers. *)
Theorem AddPeer_registers_on_caller
    (a : SimAdapter) (self peer : NodeID) (n peerNode : SimNode)
    (sp pp : string) (srest prest : list string) :
  nodes a !! self = Some n ->
  nodes a !! peer = Some peerNode ->
  peers n !! peer = None ->
  peer <> self ->
  running peerNode = Some (pp :: prest) ->
  running n = Some (sp :: srest) ->
  let localRW := mkRW (pipes a) false self peer in
  let peerRW := mkRW (pipes a) true self self in
  let runPeer := Runner peer self pp peerRW in
  let runSelf := Runner self peer sp localRW in
  exists a',
    AddPeer self peer a = (Returned, a')
    /\ pipes a' = S (pipes a)
    /\ nodes a' !! self = Some (set_peers (<[peer := peerRW]> (peers n)) n)
    /\ nodes a' !! peer = Some peerNode
    /\ goroutines a' =
         goroutines a ++ [Dropper peer peerRW; runPeer; Dropper self localRW; runSelf]
    /\ peerFeed <$> nodes (start runPeer a') !! peer =
         Some (peerFeed peerNode ++ [mkPeerEvent PeerEventTypeAdd self EmptyString])
    /\ peerFeed <$> nodes (start runSelf a') !! self =
         Some (peerFeed n ++ [mkPeerEvent PeerEventTypeAdd peer EmptyString]).
Proof.
  intros Hn Hp Hnp Hne Hrp Hrs localRW peerRW runPeer runSelf.
  unfold AddPeer. rewrite Hn, Hnp, Hp, decide_False by done.
  unfold Running. rewrite Hrp. cbn [negb].
  erewrite (RunProtocol_started peer self) by
    (cbn [nodes]; first [exact Hrp | rewrite lookup_insert_ne by done; exact Hp]).
  cbn [nodes pipes goroutines].
  erewrite (RunProtocol_started self peer) by
    (cbn [nodes running set_peers]; first [exact Hrs | apply lookup_insert_eq]).
  cbn [nodes pipes goroutines].
  eexists. split; [reflexivity|]. cbn [nodes pipes goroutines].
  split; [done|]. split; [apply lookup_insert_eq|].
  split; [by rewrite lookup_insert_ne|].
  split; [by rewrite <- app_assoc|].
  split.
  - subst runPeer. cbn [start nodes set_nodes].
    rewrite lookup_alter_eq, lookup_insert_ne, Hp by done. reflexivity.
  - subst runSelf. cbn [start nodes set_nodes].
    rewrite lookup_alter_eq, lookup_insert_eq. reflexivity.
Qed.
End SimNodeAddPeer.

Section SimNodeExamples.
Import Adapters Fixtures.

Lemma AddPeer_registers_on_caller_witness :
  exists a',
    AddPeer nodeA nodeB twoStarted = (Returned, a')
    /\ pipes a' = 1
    /\ length (goroutines a') = 4
    /\ nodes a' !! nodeB = Some startedNode.
Proof.
  destruct (AddPeer_registers_on_caller twoStarted nodeA nodeB startedNode startedNode
              "bzz" "bzz" [] [] eq_refl eq_refl eq_refl)
    as (a' & HA & Hp & _ & Hpeer & Hg & _).
  { discriminate. }
  { reflexivity. }
  { reflexivity. }
  exists a'. split; [exact HA|]. split; [exact Hp|].
  split; [rewrite Hg; reflexivity|exact Hpeer].
Defined.

(** Two started nodes: after [AddPeer] the calling node has the peer in
    its table, and the peer's table has no entry for the calling node. *)
Lemma AddPeer_does_not_register_on_peer :
  let r := AddPeer nodeA nodeB twoStarted in
  r.1 = Returned
  /\ (nodes r.2 !! nodeA ≫= fun n => peers n !! nodeB) = Some (mkRW 0 true nodeA nodeA)
  /\ (nodes r.2 !! nodeB ≫= fun n => peers n !! nodeA) = None.
Proof. repeat split; vm_compute; reflexivity. Qed.
End SimNodeExamples.

(** * Properties of the simulated network *)

Section NetworkConnect.
Import Simulations.
Variable ConnLabel : NodeId -> NodeId -> string.

(** What a successful [DidConnect] found and what it changed. *)
Lemma DidConnect_succeeded one other net net2 :
  DidConnect ConnLabel one other net = Ok (None, net2) ->
  exists i c,
    connMap net !! ConnLabel one other = Some i
    /\ Conns net !! i = Some c
    /\ Conn.Up c = false
    /\ net2 =
         mkNetwork (nodeMap net) (connMap net) (Nodes net)
           (<[i := Conn.mk (Conn.One c) (Conn.Other c) (Conn.one c) (Conn.other c)
                     true (bool_decide (Conn.One c <> one))]> (Conns net))
           (events net ++ [mkConnEvent "up" "conn" i]).
Proof.
  unfold DidConnect, GetConn, getConn, index.
  destruct (connMap net !! ConnLabel one other) as [i|]; [|done].
  destruct (Conns net !! i) as [c|] eqn:Hc; cbn; [|done].
  rewrite Hc. cbn.
  destruct (Conn.Up c) eqn:Hup; [done|].
  intros [= <-]. by exists i, c.
Qed.

(** C6, as the code has it.  [Connect] does not mark the connection up;
    [DidConnect] does.  Once [DidConnect] has succeeded for a pair that
    [Connect] connected, a further [Connect] of the pair returns the
    "already connected" error and leaves the network as it is. *)
Theorem Connect_after_DidConnect_is_duplicate
    (a b : NodeId) (net net1 net2 : Network) :
  Connect ConnLabel a b net = Ok (None, net1) ->
  DidConnect ConnLabel a b net1 = Ok (None, net2) ->
  Connect ConnLabel a b net2 = Ok (Some (ErrAlreadyConnected a b), net2).
Proof.
  intros _ HD.
  destruct (DidConnect_succeeded a b net1 net2 HD) as (i & c & Hi & Hc & _ & ->).
  assert (i < length (Conns net1)) as Hlt by (by eapply lookup_lt_Some).
  unfold Connect, GetOrCreateConn, getConn, index. cbn [connMap Conns].
  rewrite Hi. rewrite list_lookup_insert_eq by done. cbn.
  rewrite list_lookup_insert_eq by done. cbn. reflexivity.
Qed.
End NetworkConnect.

Section NetworkExamples.
Import Simulations Fixtures.

Lemma Connect_after_DidConnect_is_duplicate_witness :
  exists net1 net2,
    Connect sampleConnLabel nodeA nodeB twoUp = Ok (None, net1)
    /\ DidConnect sampleConnLabel nodeA nodeB net1 = Ok (None, net2)
    /\ Connect sampleConnLabel nodeA nodeB net2
       = Ok (Some (ErrAlreadyConnected nodeA nodeB), net2).
Proof.
  pose (net1 := mkNetwork (nodeMap twoUp)
                  (<[sampleConnLabel nodeA nodeB := 0]> (connMap twoUp)) (Nodes twoUp)
                  [Conn.mk nodeA nodeB 0 1 false false] []).
  pose (net2 := mkNetwork (nodeMap net1) (connMap net1) (Nodes net1)
                  [Conn.mk nodeA nodeB 0 1 true false] [mkConnEvent "up" "conn" 0]).
  exists net1, net2.
  assert (Connect sampleConnLabel nodeA nodeB twoUp = Ok (None, net1)) as H1
    by (vm_compute; reflexivity).
  assert (DidConnect sampleConnLabel nodeA nodeB net1 = Ok (None, net2)) as H2
    by (vm_compute; reflexivity).
  split; [exact H1|]. split; [exact H2|].
  exact (Connect_after_DidConnect_is_duplicate sampleConnLabel nodeA nodeB
           twoUp net1 net2 H1 H2).
Defined.

(** Two nodes that are up: [Connect] succeeds, and [Connect] again
    succeeds again; the second call returns no error and reaches the
    adapter once more, because nothing has marked the connection up. *)
Lemma Connect_twice_is_not_duplicate :
  node_up nodeA twoUp /\ node_up nodeB twoUp
  /\ exists net1,
       Connect sampleConnLabel nodeA nodeB twoUp = Ok (None, net1)
       /\ Connect sampleConnLabel nodeA nodeB net1 = Ok (None, net1)
       /\ Conn.Up <$> Conns net1 = [false].
Proof.
  split; [|split].
  - exists 0, (Node.mk nodeA true (rlpx nodeA)). repeat split.
  - exists 1, (Node.mk nodeB true (rlpx nodeB)). repeat split.
  - eexists. split; [vm_compute; reflexivity|]. split; vm_compute; reflexivity.
Qed.
End NetworkExamples.

(** * Further properties of the simulated network *)

Section NetworkWellFormed.
Import Simulations.
Variable ConnLabel : NodeId -> NodeId -> string.
Variable naf : NodeId -> NodeAdapter.
Variable na_Start : NodeAdapter -> option string.
Variable na_Stop : NodeAdapter -> option string.
Variable na_Disconnect : NodeAdapter -> list byte -> option string.

Lemma index_lt {A : Type} (l : list A) i :
  i < length l -> exists a, l !! i = Some a /\ index l i = Ok a.
Proof.
  intros H. destruct (lookup_lt_is_Some_2 l i H) as [a Ha].
  exists a. unfold index. by rewrite Ha.
Qed.

Lemma index_Some {A : Type} (l : list A) i a : l !! i = Some a -> index l i = Ok a.
Proof. intros H. unfold index. by rewrite H. Qed.

Lemma wf_getNode net id :
  well_formed net -> getNode id net = Ok (nodeMap net !! id).
Proof.
  intros (Hn & _ & _). unfold getNode.
  destruct (nodeMap net !! id) as [i|] eqn:Hi; [|done].
  destruct (index_lt (Nodes net) i (Hn _ _ Hi)) as (a & _ & ->). done.
Qed.

Lemma wf_getConn net a b :
  well_formed net -> getConn ConnLabel a b net = Ok (connMap net !! ConnLabel a b).
Proof.
  intros (_ & Hc & _). unfold getConn.
  destruct (connMap net !! ConnLabel a b) as [i|] eqn:Hi; [|done].
  destruct (index_lt (Conns net) i (Hc _ _ Hi)) as (c & _ & ->). done.
Qed.

Lemma wf_NewNode net id : well_formed net -> well_formed (NewNode naf id net).2.
Proof.
  intros (Hn & Hc & Hp). unfold NewNode.
  destruct (nodeMap net !! id) eqn:Hid; [done|]. cbn.
  split; [|split]; cbn.
  - intros id' i. rewrite length_app. cbn.
    destruct (decide (id = id')) as [<-|Hne].
    + rewrite lookup_insert_eq. intros [= <-]. lia.
    + rewrite lookup_insert_ne by done. intros H. specialize (Hn _ _ H). lia.
  - exact Hc.
  - intros i c H. rewrite length_app. cbn. destruct (Hp _ _ H). lia.
Qed.

Lemma wf_set_node net i n :
  well_formed net -> well_formed (set_Nodes (<[i := n]> (Nodes net)) net).
Proof.
  intros (Hn & Hc & Hp). split; [|split]; cbn; rewrite ?length_insert; done.
Qed.

Lemma wf_set_conn net i c c' ev :
  well_formed net -> Conns net !! i = Some c ->
  Conn.one c' = Conn.one c -> Conn.other c' = Conn.other c ->
  well_formed (mkNetwork (nodeMap net) (connMap net) (Nodes net)
                 (<[i := c']> (Conns net)) ev).
Proof.
  intros (Hn & Hc & Hp) Hi H1 H2. split; [|split]; cbn.
  - exact Hn.
  - intros l j. rewrite length_insert. apply Hc.
  - intros j c0. destruct (decide (i = j)) as [<-|Hne].
    + rewrite list_lookup_insert_eq by (by eapply lookup_lt_Some).
      intros [= <-]. rewrite H1, H2. by apply (Hp i).
    + rewrite list_lookup_insert_ne by done. apply Hp.
Qed.

Lemma wf_Start net id :
  well_formed net ->
  exists r, Start na_Start id net = Ok r /\ well_formed r.2.
Proof.
  intros Hwf. unfold Start, GetNode. rewrite (wf_getNode _ _ Hwf). cbn.
  destruct (nodeMap net !! id) as [i|] eqn:Hi; [|by eexists].
  destruct Hwf as (Hn & Hc & Hp).
  destruct (index_lt (Nodes net) i (Hn _ _ Hi)) as (n & _ & ->). cbn.
  destruct (Node.Up n); [by eexists|].
  destruct (na_Start (Node.na n)); [by eexists|].
  eexists. split; [done|]. by apply wf_set_node.
Qed.

Lemma wf_Stop net id :
  well_formed net ->
  exists r, Stop na_Stop id net = Ok r /\ well_formed r.2.
Proof.
  intros Hwf. unfold Stop, GetNode. rewrite (wf_getNode _ _ Hwf). cbn.
  destruct (nodeMap net !! id) as [i|] eqn:Hi; [|by eexists].
  destruct Hwf as (Hn & Hc & Hp).
  destruct (index_lt (Nodes net) i (Hn _ _ Hi)) as (n & _ & ->). cbn.
  destruct (Node.Up n); cbn; [|by eexists].
  destruct (na_Stop (Node.na n)); [by eexists|].
  eexists. split; [done|]. by apply wf_set_node.
Qed.

Lemma wf_GetOrCreateConn net a b :
  well_formed net ->
  exists r net1,
    GetOrCreateConn ConnLabel a b net = Ok (r, net1) /\ well_formed net1
    /\ forall i, r = inl i -> i < length (Conns net1).
Proof.
  intros Hwf. unfold GetOrCreateConn. rewrite (wf_getConn _ _ _ Hwf). cbn.
  destruct (connMap net !! ConnLabel a b) as [i|] eqn:Hi.
  { eexists _, _. split; [done|]. split; [done|].
    intros j [= <-]. destruct Hwf as (_ & Hc & _). by eapply Hc. }
  unfold newConn. rewrite !(wf_getNode _ _ Hwf). cbn.
  destruct (nodeMap net !! a) as [ia|] eqn:Ha; cbn;
    [|eexists _, _; split; [done|]; split; [done|]; by intros j [=]].
  destruct (nodeMap net !! b) as [ib|] eqn:Hb; cbn;
    [|eexists _, _; split; [done|]; split; [done|]; by intros j [=]].
  eexists _, _. split; [done|]. destruct Hwf as (Hn & Hc & Hp).
  split; [split; [|split]; cbn|].
  - exact Hn.
  - intros l j. rewrite length_app. cbn.
    destruct (decide (ConnLabel a b = l)) as [<-|Hne].
    + rewrite lookup_insert_eq. intros [= <-]. lia.
    + rewrite lookup_insert_ne by done. intros H. specialize (Hc _ _ H). lia.
  - intros j c Hj. apply lookup_app_Some in Hj as [Hj|[_ Hj]]; [by eapply Hp|].
    destruct (j - length (Conns net)); [|done].
    injection Hj as <-. cbn. split; by eapply Hn.
  - intros j [= <-]. cbn. rewrite length_app. cbn. lia.
Qed.

Lemma wf_Connect net a b :
  well_formed net ->
  exists r, Connect ConnLabel a b net = Ok r /\ well_formed r.2.
Proof.
  intros Hwf. unfold Connect.
  destruct (wf_GetOrCreateConn net a b Hwf) as (r & net1 & -> & Hwf1 & Hlt). cbn.
  destruct r as [i|err]; [|by eexists].
  destruct (index_lt (Conns net1) i (Hlt i eq_refl)) as (c & Hc & ->). cbn.
  destruct (Conn.Up c); [by eexists|].
  pose proof Hwf1 as (Hn & Hcm & Hp). destruct (Hp _ _ Hc) as [H1 H2].
  destruct (index_lt _ _ H1) as (n1 & _ & E1).
  destruct (index_lt _ _ H2) as (n2 & _ & E2).
  unfold nodesUp. rewrite E1. cbn.
  destruct (Node.Up n1); cbn; [|by eexists].
  rewrite E2. cbn. destruct (Node.Up n2); cbn; by eexists.
Qed.

Lemma wf_DidConnect net a b :
  well_formed net ->
  exists r, DidConnect ConnLabel a b net = Ok r /\ well_formed r.2.
Proof.
  intros Hwf. unfold DidConnect, GetConn. rewrite (wf_getConn _ _ _ Hwf). cbn.
  destruct (connMap net !! ConnLabel a b) as [i|] eqn:Hi; [|by eexists].
  pose proof Hwf as (_ & Hc & _).
  destruct (index_lt (Conns net) i (Hc _ _ Hi)) as (c & Hci & ->). cbn.
  destruct (Conn.Up c); [by eexists|].
  eexists. split; [done|]. by eapply wf_set_conn.
Qed.

Lemma wf_DidDisconnect net a b :
  well_formed net ->
  exists r, DidDisconnect ConnLabel a b net = Ok r /\ well_formed r.2.
Proof.
  intros Hwf. unfold DidDisconnect, GetConn. rewrite (wf_getConn _ _ _ Hwf). cbn.
  destruct (connMap net !! ConnLabel a b) as [i|] eqn:Hi; [|by eexists].
  pose proof Hwf as (_ & Hc & _).
  destruct (index_lt (Conns net) i (Hc _ _ Hi)) as (c & Hci & ->). cbn.
  destruct (Conn.Up c); cbn; [|by eexists].
  eexists. split; [done|]. by eapply wf_set_conn.
Qed.

Lemma wf_Disconnect net a b :
  well_formed net ->
  exists r, Disconnect ConnLabel na_Disconnect a b net = Ok r.
Proof.
  intros Hwf. unfold Disconnect, GetConn. rewrite (wf_getConn _ _ _ Hwf). cbn.
  destruct (connMap net !! ConnLabel a b) as [i|] eqn:Hi; [|by eexists].
  pose proof Hwf as (_ & Hc & Hp).
  destruct (index_lt (Conns net) i (Hc _ _ Hi)) as (c & Hci & ->). cbn.
  destruct (Conn.Up c); cbn; [|by eexists].
  destruct (Hp _ _ Hci) as [H1 H2].
  destruct (index_lt _ _ H1) as (n1 & _ & E1).
  destruct (index_lt _ _ H2) as (n2 & _ & E2).
  case_bool_decide; [rewrite E2|rewrite E1]; cbn; by eexists.
Qed.

Lemma wf_NewNetwork : well_formed NewNetwork.
Proof. split; [|split]; intros ? ?; cbn; by rewrite ?lookup_empty. Qed.
End NetworkWellFormed.

Section NetworkCalls.
Import Simulations.
Variable ConnLabel : NodeId -> NodeId -> string.
Variable na_Start : NodeAdapter -> option string.
Variable na_Stop : NodeAdapter -> option string.
Variable na_Disconnect : NodeAdapter -> list byte -> option string.

(** The adapter factory is set and the pointers of the network all point
    somewhere. *)
Lemma ready_after h c :
  is_Some (factory h) -> well_formed (network h) ->
  exists h',
    after ConnLabel na_Start na_Stop na_Disconnect c h = Ok h'
    /\ is_Some (factory h') /\ well_formed (network h').
Proof.
  intros [f Hf] Hwf. destruct c as [f'|id|id|id|a b|a b|a b|a b]; cbn.
  - eexists. split; [done|]. split; [by eexists|done].
  - unfold NewNode_on. rewrite Hf.
    pose proof (wf_NewNode f (network h) id Hwf) as Hwf1.
    destruct (NewNode f id (network h)) as [e net1]. cbn.
    eexists. split; [done|]. cbn. split; [rewrite ?Hf; by eexists|done].
  - destruct (wf_Start na_Start (network h) id Hwf) as (r & -> & H).
    eexists. split; [done|]. cbn. split; [rewrite ?Hf; by eexists|done].
  - destruct (wf_Stop na_Stop (network h) id Hwf) as (r & -> & H).
    eexists. split; [done|]. cbn. split; [rewrite ?Hf; by eexists|done].
  - destruct (wf_Connect ConnLabel (network h) a b Hwf) as (r & -> & H).
    eexists. split; [done|]. cbn. split; [rewrite ?Hf; by eexists|done].
  - destruct (wf_Disconnect ConnLabel na_Disconnect (network h) a b Hwf) as (r & ->).
    eexists. split; [done|]. split; [rewrite ?Hf; by eexists|done].
  - destruct (wf_DidConnect ConnLabel (network h) a b Hwf) as (r & -> & H).
    eexists. split; [done|]. cbn. split; [rewrite ?Hf; by eexists|done].
  - destruct (wf_DidDisconnect ConnLabel (network h) a b Hwf) as (r & -> & H).
    eexists. split; [done|]. cbn. split; [rewrite ?Hf; by eexists|done].
Qed.

End NetworkCalls.

Section NetworkNodes.
Import Simulations.
Variable ConnLabel : NodeId -> NodeId -> string.
Variable naf : NodeId -> NodeAdapter.
Variable na_Start : NodeAdapter -> option string.
Variable na_Stop : NodeAdapter -> option string.

(** X2.  [NewNode] of an id the network does not know appends the node,
    down, behind the existing ones, which stay as they are; the id is then
    found at that position; and a second [NewNode] of the id returns the
    "already added" error and changes nothing. *)
Theorem NewNode_adds_once (id : NodeId) (net : Network) :
  nodeMap net !! id = None ->
  exists net1,
    NewNode naf id net = (None, net1)
    /\ Nodes net1 = Nodes net ++ [Node.mk id false (naf id)]
    /\ getNode id net1 = Ok (Some (length (Nodes net)))
    /\ Conns net1 = Conns net /\ connMap net1 = connMap net
    /\ NewNode naf id net1 = (Some (NodeAlreadyAdded id), net1).
Proof.
  intros Hid. unfold NewNode at 1. rewrite Hid.
  eexists. split; [reflexivity|]. cbn. split; [done|].
  split.
  - unfold getNode, index. cbn. rewrite lookup_insert_eq.
    by rewrite list_lookup_middle.
  - split; [done|]. split; [done|].
    unfold NewNode. cbn. by rewrite lookup_insert_eq.
Qed.

Lemma Start_succeeded id net evs net1 :
  Start na_Start id net = Ok (None, evs, net1) ->
  exists i n,
    nodeMap net !! id = Some i /\ Nodes net !! i = Some n /\ Node.Up n = false
    /\ na_Start (Node.na n) = None
    /\ evs = [mkNodeEvent "up" "node" i]
    /\ net1 = set_Nodes (<[i := set_Up true n]> (Nodes net)) net.
Proof.
  unfold Start, GetNode, getNode, index.
  destruct (nodeMap net !! id) as [i|]; [|done]. cbn.
  destruct (Nodes net !! i) as [n|] eqn:Hn; cbn; [|done].
  rewrite Hn. cbn.
  destruct (Node.Up n) eqn:Hup; [done|].
  destruct (na_Start (Node.na n)) eqn:Hs; [done|].
  intros [= <- <-]. by exists i, n.
Qed.

(** X3.  A [Start] that succeeds marks the node up and posts one "up"
    event; a second [Start] of the node returns the "already up" error and
    changes nothing; and a [Stop] whose adapter agrees puts the network
    back exactly as it was before the [Start], posting one "down" event. *)
Theorem Start_Stop_round_trip (id : NodeId) (net net1 : Network) (evs : list NodeEvent) :
  Start na_Start id net = Ok (None, evs, net1) ->
  exists i n,
    Nodes net !! i = Some n
    /\ evs = [mkNodeEvent "up" "node" i]
    /\ node_up id net1
    /\ Start na_Start id net1 = Ok (Some (NodeAlreadyUp id), [], net1)
    /\ (na_Stop (Node.na n) = None ->
        Stop na_Stop id net1 = Ok (None, [mkNodeEvent "down" "node" i], net)).
Proof.
  intros HS.
  destruct (Start_succeeded id net evs net1 HS) as (i & n & Hi & Hn & Hup & _ & -> & ->).
  assert (i < length (Nodes net)) as Hlt by (by eapply lookup_lt_Some).
  assert (<[i := set_Up true n]> (Nodes net) !! i = Some (set_Up true n)) as Hn1
    by (by apply list_lookup_insert_eq).
  exists i, n. split; [done|]. split; [done|]. split; [|split].
  - exists i, (set_Up true n). split; [|by split].
    unfold getNode, index. cbn. by rewrite Hi, Hn1.
  - unfold Start, GetNode, getNode, index. cbn. rewrite Hi. cbn.
    rewrite Hn1. cbn. by rewrite Hn1.
  - intros Hstop. unfold Stop, GetNode, getNode, index. cbn. rewrite Hi. cbn.
    rewrite Hn1. cbn. rewrite Hn1. cbn. rewrite Hstop. unfold set_Nodes. cbn.
    rewrite list_insert_insert_eq.
    replace (set_Up false (set_Up true n)) with n
      by (destruct n; cbn in *; by subst).
    rewrite list_insert_id by done. by destruct net.
Qed.
End NetworkNodes.

Section NetworkConns.
Import Simulations.
Variable ConnLabel : NodeId -> NodeId -> string.
Variable na_Start : NodeAdapter -> option string.
Variable na_Disconnect : NodeAdapter -> list byte -> option string.

Lemma getConn_at a b net i c :
  connMap net !! ConnLabel a b = Some i -> Conns net !! i = Some c ->
  getConn ConnLabel a b net = Ok (Some i).
Proof. intros Hi Hc. unfold getConn, index. by rewrite Hi, Hc. Qed.

(** What [GetOrCreateConn] returns with a connection: the one the label
    already had, or a new one, down, appended behind the others. *)
Lemma GetOrCreateConn_result a b net i net1 :
  GetOrCreateConn ConnLabel a b net = Ok (inl i, net1) ->
  connMap net1 !! ConnLabel a b = Some i
  /\ nodeMap net1 = nodeMap net /\ Nodes net1 = Nodes net
  /\ exists c,
       Conns net1 !! i = Some c
       /\ ((net1 = net /\ connMap net !! ConnLabel a b = Some i)
           \/ (connMap net !! ConnLabel a b = None
               /\ i = length (Conns net)
               /\ Conns net1 = Conns net ++ [c]
               /\ Conn.One c = a /\ Conn.Other c = b /\ Conn.Up c = false
               /\ nodeMap net !! a = Some (Conn.one c)
               /\ nodeMap net !! b = Some (Conn.other c))).
Proof.
  unfold GetOrCreateConn, getConn, index.
  destruct (connMap net !! ConnLabel a b) as [j|] eqn:Hj; cbn.
  - destruct (Conns net !! j) as [c|] eqn:Hc; cbn; [|done].
    intros [= <- <-]. repeat split; [done|]. exists c. split; [done|]. by left.
  - unfold newConn, getNode, index.
    destruct (nodeMap net !! a) as [ia|] eqn:Ha; cbn; [|done].
    destruct (Nodes net !! ia); cbn; [|done].
    destruct (nodeMap net !! b) as [ib|] eqn:Hb; cbn; [|done].
    destruct (Nodes net !! ib); cbn; [|done].
    intros [= <- <-]. cbn. rewrite lookup_insert_eq. repeat split.
    eexists. split; [apply list_lookup_middle; done|].
    right. by repeat split.
Qed.

(** X4.  There is at most one connection per label: once
    [GetOrCreateConn] has returned a connection, asking again returns the
    same one and changes nothing, also with the two ids swapped when the
    label does not depend on their order. *)
Theorem GetOrCreateConn_once (a b : NodeId) (net net1 : Network) (i : nat) :
  GetOrCreateConn ConnLabel a b net = Ok (inl i, net1) ->
  GetOrCreateConn ConnLabel a b net1 = Ok (inl i, net1)
  /\ (ConnLabel b a = ConnLabel a b ->
      GetOrCreateConn ConnLabel b a net1 = Ok (inl i, net1))
  /\ length (Conns net1) <= S (length (Conns net)).
Proof.
  intros H. destruct (GetOrCreateConn_result a b net i net1 H)
    as (Hm & _ & _ & c & Hc & Hcase).
  split; [|split].
  - unfold GetOrCreateConn. by rewrite (getConn_at a b net1 i c Hm Hc).
  - intros Hsym. unfold GetOrCreateConn, getConn, index. by rewrite Hsym, Hm, Hc.
  - destruct Hcase as [[-> _]|(_ & _ & -> & _)]; [lia|].
    rewrite length_app. cbn. lia.
Qed.

(** [Connect] on a connection that exists and is down. *)
Lemma Connect_existing a b net i c n1 n2 :
  connMap net !! ConnLabel a b = Some i -> Conns net !! i = Some c ->
  Conn.Up c = false ->
  Nodes net !! Conn.one c = Some n1 -> Nodes net !! Conn.other c = Some n2 ->
  Connect ConnLabel a b net =
    Ok (if negb (Node.Up n1) then Some (ErrOneNotUp (Conn.One c))
        else if negb (Node.Up n2) then Some (ErrOtherNotUp (Conn.Other c))
        else ErrAdapter <$>
               (if bool_decide (Conn.One c <> a)
                then na_Connect (Node.na n2) (Addr (Node.na n1))
                else na_Connect (Node.na n1) (Addr (Node.na n2))),
        net).
Proof.
  intros Hi Hc Hup H1 H2. unfold Connect, GetOrCreateConn.
  rewrite (getConn_at a b net i c Hi Hc). cbn.
  rewrite (index_Some _ _ _ Hc). cbn. rewrite Hup.
  unfold nodesUp. rewrite (index_Some _ _ _ H1). cbn.
  destruct (Node.Up n1); cbn; [|done].
  rewrite (index_Some _ _ _ H2). cbn.
  destruct (Node.Up n2); cbn; [|done].
  done.
Qed.

(** [Connect] between two known nodes, without a connection yet, the first
    of which is down. *)
Lemma Connect_first_down a b net ia ib na nb :
  connMap net !! ConnLabel a b = None ->
  nodeMap net !! a = Some ia -> nodeMap net !! b = Some ib ->
  Nodes net !! ia = Some na -> Nodes net !! ib = Some nb ->
  Node.Up na = false ->
  Connect ConnLabel a b net =
    Ok (Some (ErrOneNotUp a),
        mkNetwork (nodeMap net)
          (<[ConnLabel a b := length (Conns net)]> (connMap net))
          (Nodes net) (Conns net ++ [Conn.mk a b ia ib false false]) (events net)).
Proof.
  intros Hnone Ha Hb Hna Hnb Hdown.
  unfold Connect, GetOrCreateConn, getConn, newConn, getNode.
  rewrite Hnone, Ha, Hb. cbn.
  rewrite (index_Some _ _ _ Hna). cbn. rewrite (index_Some _ _ _ Hnb). cbn.
  unfold index at 1. cbn. rewrite list_lookup_middle by done. cbn.
  unfold nodesUp. cbn. rewrite (index_Some _ _ _ Hna). cbn. by rewrite Hdown.
Qed.

(** X5.  [Connect] with an id the network does not know returns the
    "does not exist" error and leaves the network as it is; [Connect]
    between two known nodes of which the first is down returns the "not
    up" error but has by then created the connection, which stays in the
    network. *)
Theorem Connect_failures (a b : NodeId) (net : Network) :
  connMap net !! ConnLabel a b = None ->
  (nodeMap net !! a = None -> Connect ConnLabel a b net = Ok (Some ErrOneNotExist, net))
  /\ (forall ia ib na nb,
        nodeMap net !! a = Some ia -> nodeMap net !! b = Some ib ->
        Nodes net !! ia = Some na -> Nodes net !! ib = Some nb ->
        Node.Up na = false ->
        exists net1,
          Connect ConnLabel a b net = Ok (Some (ErrOneNotUp a), net1)
          /\ Conns net1 = Conns net ++ [Conn.mk a b ia ib false false]
          /\ getConn ConnLabel a b net1 = Ok (Some (length (Conns net)))).
Proof.
  intros Hnone. split.
  - intros Ha. unfold Connect, GetOrCreateConn, getConn, newConn, getNode.
    by rewrite Hnone, Ha.
  - intros ia ib na nb Ha Hb Hna Hnb Hdown.
    rewrite (Connect_first_down a b net ia ib na nb) by done.
    eexists. split; [reflexivity|]. cbn. split; [done|].
    unfold getConn, index. cbn. rewrite lookup_insert_eq.
    by rewrite list_lookup_middle.
Qed.
End NetworkConns.

Section NetworkComposition.
Import Simulations.
Variable ConnLabel : NodeId -> NodeId -> string.
Variable naf : NodeId -> NodeAdapter.
Variable na_Start : NodeAdapter -> option string.
Variable na_Stop : NodeAdapter -> option string.
Variable na_Disconnect : NodeAdapter -> list byte -> option string.

Lemma Start_at id net i n :
  nodeMap net !! id = Some i -> Nodes net !! i = Some n ->
  Node.Up n = false -> na_Start (Node.na n) = None ->
  Start na_Start id net =
    Ok (None, [mkNodeEvent "up" "node" i],
        set_Nodes (<[i := set_Up true n]> (Nodes net)) net).
Proof.
  intros Hi Hn Hup Hs. unfold Start, GetNode, getNode.
  rewrite Hi, (index_Some _ _ _ Hn). cbn. rewrite (index_Some _ _ _ Hn). cbn.
  by rewrite Hup, Hs.
Qed.

(** X6.  A connection keeps pointing at its nodes: when [Connect] has
    failed because the nodes were down, and both nodes are started
    afterwards, [Connect] of the same pair passes the checks with the very
    connection made by the first call, and returns what the adapter of the
    first node answers when it is given the address of the second. *)
Theorem Connect_sees_later_Start
    (a b : NodeId) (net : Network) (ia ib : nat) (na nb : Node.t) :
  connMap net !! ConnLabel a b = None ->
  nodeMap net !! a = Some ia -> nodeMap net !! b = Some ib -> ia <> ib ->
  Nodes net !! ia = Some na -> Nodes net !! ib = Some nb ->
  Node.Up na = false -> Node.Up nb = false ->
  na_Start (Node.na na) = None -> na_Start (Node.na nb) = None ->
  exists net1 net2 net3 e2 e3,
    Connect ConnLabel a b net = Ok (Some (ErrOneNotUp a), net1)
    /\ Start na_Start a net1 = Ok (None, e2, net2)
    /\ Start na_Start b net2 = Ok (None, e3, net3)
    /\ Connect ConnLabel a b net3 =
         Ok (ErrAdapter <$> na_Connect (Node.na na) (Addr (Node.na nb)), net3)
    /\ Conns net3 = Conns net ++ [Conn.mk a b ia ib false false].
Proof.
  intros Hnone Ha Hb Hne Hna Hnb Hda Hdb Hsa Hsb.
  pose proof (Connect_first_down ConnLabel a b net ia ib na nb
                Hnone Ha Hb Hna Hnb Hda) as HC.
  set (net1 := mkNetwork _ _ _ _ _) in HC.
  assert (nodeMap net1 = nodeMap net /\ Nodes net1 = Nodes net
          /\ connMap net1 = <[ConnLabel a b := length (Conns net)]> (connMap net)
          /\ Conns net1 = Conns net ++ [Conn.mk a b ia ib false false])
    as (Hnm & Hnodes & Hcm & Hconns) by done.
  clearbody net1.
  assert (ia < length (Nodes net)) as Hlta by (by eapply lookup_lt_Some).
  assert (ib < length (Nodes net)) as Hltb by (by eapply lookup_lt_Some).
  eexists net1, _, _, _, _. split; [exact HC|].
  split; [apply Start_at; rewrite ?Hnm, ?Hnodes; eassumption|].
  split.
  { apply Start_at with (n := nb); cbn; rewrite ?Hnm, ?Hnodes; try done.
    by rewrite list_lookup_insert_ne. }
  split; [|cbn; exact Hconns].
  erewrite (Connect_existing ConnLabel a b _ (length (Conns net))
              (Conn.mk a b ia ib false false) (set_Up true na) (set_Up true nb)).
  - cbn. by rewrite bool_decide_false by (by intros []).
  - cbn. rewrite Hcm. apply lookup_insert_eq.
  - cbn. rewrite Hconns. by apply list_lookup_middle.
  - done.
  - cbn. rewrite Hnodes. rewrite list_lookup_insert_ne by done.
    by apply list_lookup_insert_eq.
  - cbn. rewrite Hnodes. apply list_lookup_insert_eq. by rewrite length_insert.
Qed.

Lemma Connect_succeeded a b net net1 :
  Connect ConnLabel a b net = Ok (None, net1) ->
  exists i c,
    connMap net1 !! ConnLabel a b = Some i /\ Conns net1 !! i = Some c
    /\ Conn.Up c = false.
Proof.
  unfold Connect.
  destruct (GetOrCreateConn ConnLabel a b net) as [[[i|err] net']|] eqn:HG; cbn; [|done|done].
  destruct (GetOrCreateConn_result ConnLabel a b net i net' HG)
    as (Hm & _ & _ & c & Hc & _).
  rewrite (index_Some _ _ _ Hc). cbn.
  destruct (Conn.Up c) eqn:Hup; [done|].
  destruct (nodesUp c net') as [[e|]|]; cbn; [done| |done].
  destruct (index (Nodes net') (Conn.one c)); cbn; [|done].
  destruct (index (Nodes net') (Conn.other c)); cbn; [|done].
  intros [= _ <-]. by exists i, c.
Qed.

(** X7.  [Connect] does not mark the connection up, so a [Disconnect] (or
    a [DidDisconnect]) that follows a successful [Connect] at once is
    refused with the "already disconnected" error. *)
Theorem Disconnect_after_Connect_is_refused (a b : NodeId) (net net1 : Network) :
  Connect ConnLabel a b net = Ok (None, net1) ->
  Disconnect ConnLabel na_Disconnect a b net1 = Ok (Some (AlreadyDisconnected a b))
  /\ DidDisconnect ConnLabel a b net1 = Ok (Some (AlreadyDisconnected a b), net1).
Proof.
  intros HC. destruct (Connect_succeeded a b net net1 HC) as (i & c & Hi & Hc & Hup).
  unfold Disconnect, DidDisconnect, GetConn.
  rewrite (getConn_at ConnLabel a b net1 i c Hi Hc). cbn.
  rewrite (index_Some _ _ _ Hc). cbn. by rewrite Hup.
Qed.

(** X8.  [DidDisconnect] undoes [DidConnect]: after a [DidConnect] that
    succeeded, [DidDisconnect] succeeds; the connection is down again with
    the nodes and maps as before; an "up" and a "down" event have been
    posted; and a further [DidDisconnect] is refused and changes nothing. *)
Theorem DidConnect_DidDisconnect_round_trip (a b : NodeId) (net net1 : Network) :
  DidConnect ConnLabel a b net = Ok (None, net1) ->
  exists i net2,
    DidDisconnect ConnLabel a b net1 = Ok (None, net2)
    /\ Conn.Up <$> Conns net2 = Conn.Up <$> Conns net
    /\ nodeMap net2 = nodeMap net /\ connMap net2 = connMap net
    /\ Nodes net2 = Nodes net
    /\ events net2 = events net ++ [mkConnEvent "up" "conn" i; mkConnEvent "down" "conn" i]
    /\ DidDisconnect ConnLabel a b net2 = Ok (Some (AlreadyDisconnected a b), net2).
Proof.
  intros HD.
  destruct (DidConnect_succeeded ConnLabel a b net net1 HD) as (i & c & Hi & Hc & Hup & ->).
  assert (i < length (Conns net)) as Hlt by (by eapply lookup_lt_Some).
  exists i. eexists. split.
  { unfold DidDisconnect, GetConn, getConn, index. cbn. rewrite Hi. cbn.
    rewrite list_lookup_insert_eq by done. cbn.
    rewrite list_lookup_insert_eq by done. cbn. reflexivity. }
  cbn. split; [|split; [done|split; [done|split; [done|split]]]].
  - rewrite list_insert_insert_eq, list_fmap_insert. cbn.
    apply list_insert_id. rewrite list_lookup_fmap, Hc. cbn. by rewrite Hup.
  - by rewrite <- app_assoc.
  - unfold DidDisconnect, GetConn, getConn, index. cbn. rewrite Hi. cbn.
    rewrite list_insert_insert_eq.
    rewrite list_lookup_insert_eq by done. cbn.
    rewrite list_lookup_insert_eq by done. cbn. reflexivity.
Qed.

(** X9.  The directions of [Connect] and [Disconnect].  On a connection
    stored as (a, b) between two different nodes, under a label that does
    not depend on the order: [Connect], when down and with both nodes up,
    has the node named first dial the node named second, in either order;
    [Disconnect], when up, asks the adapter of the node named first,
    handing it b's id in either order: b's own id when b is named first. *)
Theorem Connect_and_Disconnect_direction
    (a b : NodeId) (net : Network) (i : nat) (c : Conn.t) (na nb : Node.t) :
  a <> b -> ConnLabel b a = ConnLabel a b ->
  connMap net !! ConnLabel a b = Some i -> Conns net !! i = Some c ->
  Conn.One c = a -> Conn.Other c = b ->
  Nodes net !! Conn.one c = Some na -> Nodes net !! Conn.other c = Some nb ->
  Node.Up na = true -> Node.Up nb = true ->
  (Conn.Up c = false ->
     Connect ConnLabel a b net =
       Ok (ErrAdapter <$> na_Connect (Node.na na) (Addr (Node.na nb)), net)
     /\ Connect ConnLabel b a net =
       Ok (ErrAdapter <$> na_Connect (Node.na nb) (Addr (Node.na na)), net))
  /\ (Conn.Up c = true ->
     Disconnect ConnLabel na_Disconnect a b net =
       Ok (AdapterFault <$> na_Disconnect (Node.na na) b)
     /\ Disconnect ConnLabel na_Disconnect b a net =
       Ok (AdapterFault <$> na_Disconnect (Node.na nb) b)).
Proof.
  intros Hne Hsym Hi Hc H1 H2 Hna Hnb Hupa Hupb.
  assert (connMap net !! ConnLabel b a = Some i) as Hi' by (by rewrite Hsym).
  split; intros Hup.
  - rewrite (Connect_existing ConnLabel a b net i c na nb) by done.
    rewrite (Connect_existing ConnLabel b a net i c na nb) by done.
    rewrite Hupa, Hupb, H1. cbn.
    rewrite bool_decide_false by (by intros []).
    by rewrite bool_decide_true by done.
  - unfold Disconnect, GetConn.
    rewrite (getConn_at ConnLabel a b net i c Hi Hc).
    rewrite (getConn_at ConnLabel b a net i c Hi' Hc). cbn.
    rewrite (index_Some _ _ _ Hc). cbn. rewrite Hup, H1. cbn.
    rewrite bool_decide_false by (by intros []).
    rewrite bool_decide_true by done.
    by rewrite (index_Some _ _ _ Hna), (index_Some _ _ _ Hnb).
Qed.

End NetworkComposition.

(** * Further properties of the in-process node adapter *)

Section SimNodePeers.
Import Adapters.

(** [AddPeer] between two started nodes that are not peers yet. *)
Lemma AddPeer_connects a self peer n peerNode sp pp srest prest :
  nodes a !! self = Some n ->
  nodes a !! peer = Some peerNode ->
  peers n !! peer = None ->
  peer <> self ->
  running peerNode = Some (pp :: prest) ->
  running n = Some (sp :: srest) ->
  AddPeer self peer a =
    (Returned,
     mkSimAdapter
       (<[self := set_peers (<[peer := mkRW (pipes a) true self self]> (peers n)) n]>
          (nodes a))
       (S (pipes a))
       (goroutines a ++
          [Dropper peer (mkRW (pipes a) true self self);
           Runner peer self pp (mkRW (pipes a) true self self);
           Dropper self (mkRW (pipes a) false self peer);
           Runner self peer sp (mkRW (pipes a) false self peer)])).
Proof.
  intros Hn Hp Hnp Hne Hrp Hrs.
  unfold AddPeer. rewrite Hn, Hnp, Hp, decide_False by done.
  unfold Running. rewrite Hrp. cbn [negb].
  erewrite (RunProtocol_started peer self) by
    (cbn [nodes]; first [exact Hrp | rewrite lookup_insert_ne by done; exact Hp]).
  cbn [nodes pipes goroutines].
  erewrite (RunProtocol_started self peer) by
    (cbn [nodes running set_peers]; first [exact Hrs | apply lookup_insert_eq]).
  cbn [nodes pipes goroutines]. by rewrite <- app_assoc.
Qed.

(** X11.  [AddPeer] is idempotent: once it has connected two started
    nodes, calling it again for the same peer returns at once, with no new
    pipe, no new goroutine and the peer tables as they are. *)
Theorem AddPeer_twice
    (a a' : SimAdapter) (self peer : NodeID) (n peerNode : SimNode)
    (sp pp : string) (srest prest : list string) :
  nodes a !! self = Some n ->
  nodes a !! peer = Some peerNode ->
  peers n !! peer = None ->
  peer <> self ->
  running peerNode = Some (pp :: prest) ->
  running n = Some (sp :: srest) ->
  AddPeer self peer a = (Returned, a') ->
  AddPeer self peer a' = (Returned, a')
  /\ PeerCount self a' = Some (S (size (peers n))).
Proof.
  intros Hn Hp Hnp Hne Hrp Hrs HA.
  rewrite (AddPeer_connects a self peer n peerNode sp pp srest prest) in HA by done.
  injection HA as <-. split.
  - unfold AddPeer. cbn [nodes]. rewrite lookup_insert_eq. cbn [peers set_peers].
    by rewrite lookup_insert_eq.
  - unfold PeerCount. cbn [nodes]. rewrite lookup_insert_eq. cbn.
    by rewrite map_size_insert_None.
Qed.

(** X12.  [RemovePeer] undoes the registration of [AddPeer]: it returns
    (closes) the pipe end that [AddPeer] registered and puts every node's
    peer table back as it was; the pipe counter is not taken back. *)
Theorem AddPeer_RemovePeer_round_trip
    (a a' : SimAdapter) (self peer : NodeID) (n peerNode : SimNode)
    (sp pp : string) (srest prest : list string) :
  nodes a !! self = Some n ->
  nodes a !! peer = Some peerNode ->
  peers n !! peer = None ->
  peer <> self ->
  running peerNode = Some (pp :: prest) ->
  running n = Some (sp :: srest) ->
  AddPeer self peer a = (Returned, a') ->
  exists a'',
    RemovePeer self peer a' = (Returned, Some (mkRW (pipes a) true self self), a'')
    /\ nodes a'' = nodes a
    /\ pipes a'' = S (pipes a)
    /\ RemovePeer self peer a'' = (Returned, None, a'').
Proof.
  intros Hn Hp Hnp Hne Hrp Hrs HA.
  rewrite (AddPeer_connects a self peer n peerNode sp pp srest prest) in HA by done.
  injection HA as <-.
  assert (<[self := set_peers (delete peer (<[peer := mkRW (pipes a) true self self]> (peers n))) n]>
            (<[self := set_peers (<[peer := mkRW (pipes a) true self self]> (peers n)) n]>
               (nodes a)) = nodes a) as Hback.
  { rewrite insert_insert_eq, delete_insert_id by done.
    apply insert_id. by destruct n. }
  exists (mkSimAdapter (nodes a) (S (pipes a))
            (goroutines a ++
               [Dropper peer (mkRW (pipes a) true self self);
                Runner peer self pp (mkRW (pipes a) true self self);
                Dropper self (mkRW (pipes a) false self peer);
                Runner self peer sp (mkRW (pipes a) false self peer)])).
  split; [|split; [done|split; [done|]]].
  - unfold RemovePeer. cbn [nodes]. rewrite lookup_insert_eq. cbn [peers set_peers].
    rewrite lookup_insert_eq. unfold set_nodes, set_peers in *. cbn in *.
    by rewrite Hback.
  - unfold RemovePeer. cbn [nodes]. by rewrite Hn, Hnp.
Qed.
End SimNodePeers.

Section SimNodeEdges.
Import Adapters.

(** X13.  When the protocol of a runner returns, the runner removes the
    peer from its node's table (if it is there) and then sends a drop
    event carrying the error text on its node's feed; other nodes are not
    touched.  When the protocol returns a nil error, the runner panics on
    [err.Error()]: the peer has been removed by then and no event is
    sent. *)
Theorem runner_exit_removes_then_reports
    (a : SimAdapter) (node peer : NodeID) (n : SimNode) (err : option string) :
  nodes a !! node = Some n ->
  exists a',
    runner_exit node peer err a
      = (match err with Some _ => Returned | None => Panicked end, a')
    /\ nodes a' !! node =
         Some (mkSimNode (running n) (delete peer (peers n))
                 (peerFeed n ++
                    match err with
                    | Some e => [mkPeerEvent PeerEventTypeDrop peer e]
                    | None => []
                    end))
    /\ (forall id, id <> node -> nodes a' !! id = nodes a !! id)
    /\ pipes a' = pipes a /\ goroutines a' = goroutines a.
Proof.
  intros Hn. unfold runner_exit, RemovePeer. rewrite Hn.
  destruct (peers n !! peer) as [rw|] eqn:Hp; destruct err as [e|];
    (eexists; split; [reflexivity|]); cbn;
    rewrite ?lookup_alter_eq, ?lookup_insert_eq, ?Hn, ?app_nil_r; cbn;
    rewrite ?(delete_id _ _ Hp);
    (split; [by destruct n|]);
    (split; [|done]); intros id Hne;
    by rewrite ?lookup_alter_ne, ?lookup_insert_ne by done.
Qed.

(** X14.  [AddPeer] on a node that has not been started panics (the
    caller's own [RunProtocol] reads its nil service), but only after it
    has registered the peer in the caller's table, made the pipe, started
    the two goroutines of the peer side and the first one of its own. *)
Theorem AddPeer_on_unstarted_node_panics_late
    (a : SimAdapter) (self peer : NodeID) (n peerNode : SimNode)
    (pp : string) (prest : list string) :
  nodes a !! self = Some n ->
  nodes a !! peer = Some peerNode ->
  peers n !! peer = None ->
  peer <> self ->
  running peerNode = Some (pp :: prest) ->
  running n = None ->
  AddPeer self peer a =
    (Panicked,
     mkSimAdapter
       (<[self := set_peers (<[peer := mkRW (pipes a) true self self]> (peers n)) n]>
          (nodes a))
       (S (pipes a))
       (goroutines a ++
          [Dropper peer (mkRW (pipes a) true self self);
           Runner peer self pp (mkRW (pipes a) true self self);
           Dropper self (mkRW (pipes a) false self peer)])).
Proof.
  intros Hn Hp Hnp Hne Hrp Hrs.
  unfold AddPeer. rewrite Hn, Hnp, Hp, decide_False by done.
  unfold Running. rewrite Hrp. cbn [negb].
  erewrite (RunProtocol_started peer self) by
    (cbn [nodes]; first [exact Hrp | rewrite lookup_insert_ne by done; exact Hp]).
  cbn [nodes pipes goroutines].
  unfold RunProtocol. cbn [nodes spawn]. rewrite lookup_insert_eq.
  cbn [running set_peers]. rewrite Hrs. unfold spawn. cbn.
  by rewrite <- app_assoc.
Qed.

(** X15.  [AddPeer] changes nothing unless the peer is a known node,
    other than the caller, that is running and not yet in the caller's
    table; the admin API all the same answers true, whenever the call
    returns, for every url that parses. *)
Theorem AddPeer_changes_nothing_unless
    (ParseNode : string -> option NodeID) (url : string)
    (a : SimAdapter) (self peer : NodeID) :
  ~ (exists n peerNode,
       nodes a !! self = Some n /\ nodes a !! peer = Some peerNode
       /\ peers n !! peer = None /\ peer <> self /\ Running peerNode = true) ->
  (AddPeer self peer a).2 = a
  /\ (ParseNode url = Some peer -> (AddPeer self peer a).1 = Returned ->
      Admin_AddPeer ParseNode self url a = (Returned, true, a)).
Proof.
  intros Hno.
  assert ((AddPeer self peer a).2 = a) as Hsame.
  { unfold AddPeer.
    destruct (nodes a !! self) as [n|] eqn:Hn; [|done].
    destruct (peers n !! peer) eqn:Hnp; [done|].
    destruct (nodes a !! peer) as [pn|] eqn:Hp; [|done].
    destruct (decide (peer = self)) as [|Hne]; [done|].
    destruct (Running pn) eqn:Hr; [|done].
    exfalso. apply Hno. by exists n, pn. }
  split; [exact Hsame|].
  intros Hurl Hret. unfold Admin_AddPeer. rewrite Hurl.
  destruct (AddPeer self peer a) as [o a'] eqn:HA. cbn in *. by subst.
Qed.

(** X16.  [NewNode] with a new id and a known service adds a node that is
    not running and has no peers, and leaves the other nodes alone; a
    second [NewNode] with the id is refused; and as long as the node is
    not started, [AddPeer] towards it from another node does nothing. *)
Theorem NewNode_adds_idle_node
    (services : gset string) (id : NodeID) (service : string) (a : SimAdapter) :
  nodes a !! id = None ->
  service ∈ services ->
  exists a',
    NewNode services id service a = (None, a')
    /\ GetNode id a' = Some (mkSimNode None ∅ [])
    /\ PeerCount id a' = Some 0
    /\ (forall id', id' <> id -> GetNode id' a' = GetNode id' a)
    /\ NewNode services id service a' = (Some (NodeExists id), a')
    /\ (forall self, self <> id -> is_Some (nodes a !! self) ->
          AddPeer self id a' = (Returned, a')).
Proof.
  intros Hid Hs. unfold NewNode at 1. rewrite Hid, decide_True by done.
  eexists. split; [reflexivity|]. unfold GetNode, PeerCount. cbn.
  rewrite lookup_insert_eq. repeat split.
  - intros id' Hne. by rewrite lookup_insert_ne.
  - unfold NewNode. cbn. by rewrite lookup_insert_eq.
  - intros self Hne [n Hn]. unfold AddPeer. cbn.
    rewrite lookup_insert_ne, Hn, lookup_insert_eq by done.
    destruct (peers n !! id); [done|]. by rewrite decide_False.
Qed.
End SimNodeEdges.

Section SimAdapterPipes.
Import Adapters.

Abbreviation entry a id p rw :=
  (exists n, nodes a !! id = Some n /\ peers n !! p = Some rw).

Lemma pipes_fresh_entries a :
  pipes_fresh a <->
  (forall id p rw, entry a id p rw -> pipe rw < pipes a)
  /\ (forall id1 p1 rw1 id2 p2 rw2,
        entry a id1 p1 rw1 -> entry a id2 p2 rw2 ->
        pipe rw1 = pipe rw2 -> id1 = id2 /\ p1 = p2).
Proof.
  unfold pipes_fresh. split; intros [Hb Hd]; split.
  - intros id p rw (n & Hn & Hp). by eapply Hb.
  - intros id1 p1 rw1 id2 p2 rw2 (n1 & Hn1 & Hp1) (n2 & Hn2 & Hp2). by eapply Hd.
  - intros id n p rw Hn Hp. apply (Hb id p). by exists n.
  - intros id1 n1 p1 rw1 id2 n2 p2 rw2 Hn1 Hp1 Hn2 Hp2.
    apply (Hd id1 p1 rw1 id2 p2 rw2); by eexists.
Qed.

(** Registering the end of a new pipe keeps the pipes apart. *)
Lemma pipes_fresh_register a self peer n rw gs :
  pipes_fresh a -> nodes a !! self = Some n -> pipe rw = pipes a ->
  pipes_fresh (mkSimAdapter (<[self := set_peers (<[peer := rw]> (peers n)) n]> (nodes a))
                 (S (pipes a)) gs).
Proof.
  intros Hf Hn Hrw. apply pipes_fresh_entries in Hf as [Hb Hd].
  set (a' := mkSimAdapter _ _ _).
  assert (forall id p x, entry a' id p x ->
            (id = self /\ p = peer /\ x = rw) \/ entry a id p x) as Hold.
  { intros id p x (m & Hm & Hp). cbn in Hm.
    destruct (decide (self = id)) as [<-|Hne].
    - rewrite lookup_insert_eq in Hm. injection Hm as <-. cbn in Hp.
      destruct (decide (peer = p)) as [<-|Hnp].
      + rewrite lookup_insert_eq in Hp. injection Hp as <-. by left.
      + rewrite lookup_insert_ne in Hp by done. right. by exists n.
    - rewrite lookup_insert_ne in Hm by done. right. by exists m. }
  apply pipes_fresh_entries. split.
  - intros id p x He. cbn.
    destruct (Hold _ _ _ He) as [(_ & _ & ->)|He']; [lia|].
    specialize (Hb _ _ _ He'). lia.
  - intros id1 p1 x1 id2 p2 x2 He1 He2 Heq.
    destruct (Hold _ _ _ He1) as [(-> & -> & ->)|He1'];
      destruct (Hold _ _ _ He2) as [(-> & -> & ->)|He2'].
    + done.
    + specialize (Hb _ _ _ He2'). lia.
    + specialize (Hb _ _ _ He1'). lia.
    + by eapply Hd.
Qed.

(** Dropping entries, or changing what is not a peer table, keeps them
    apart too. *)
Lemma pipes_fresh_shrink a a' :
  pipes_fresh a -> pipes a' = pipes a ->
  (forall id p rw, entry a' id p rw -> entry a id p rw) ->
  pipes_fresh a'.
Proof.
  intros Hf Hp Hsub. apply pipes_fresh_entries in Hf as [Hb Hd].
  apply pipes_fresh_entries. split.
  - intros id p rw He. rewrite Hp. eapply Hb, Hsub, He.
  - intros id1 p1 rw1 id2 p2 rw2 He1 He2. eapply Hd; by apply Hsub.
Qed.

Lemma RunProtocol_keeps_tables self peer rw a :
  nodes (RunProtocol self peer rw a).2 = nodes a
  /\ pipes (RunProtocol self peer rw a).2 = pipes a.
Proof.
  unfold RunProtocol. cbn.
  destruct (nodes a !! self) as [n|]; [|done].
  by destruct (running n) as [[|? ?]|].
Qed.

Lemma pipes_fresh_AddPeer self peer a : pipes_fresh a -> pipes_fresh (AddPeer self peer a).2.
Proof.
  intros Hf. unfold AddPeer.
  destruct (nodes a !! self) as [n|] eqn:Hn; [|done].
  destruct (peers n !! peer) eqn:Hnp; [done|].
  destruct (nodes a !! peer) as [pn|] eqn:Hp; [|done].
  destruct (decide (peer = self)) as [|Hne]; [done|].
  destruct (negb (Running pn)); [done|].
  set (a1 := mkSimAdapter _ _ _).
  assert (pipes_fresh a1) as H1 by (by apply pipes_fresh_register).
  pose proof (RunProtocol_keeps_tables peer self (mkRW (pipes a) true self self) a1)
    as [Hn2 Hp2].
  destruct (RunProtocol peer self _ a1) as [o a2] eqn:HR. cbn in Hn2, Hp2.
  assert (pipes_fresh a2) as H2.
  { eapply pipes_fresh_shrink; [exact H1|done|]. intros ? ? ?. by rewrite Hn2. }
  destruct o; [|done|done].
  pose proof (RunProtocol_keeps_tables self peer (mkRW (pipes a) false self peer) a2)
    as [Hn3 Hp3].
  eapply pipes_fresh_shrink; [exact H2|done|]. intros ? ? ?. by rewrite Hn3.
Qed.

Lemma pipes_fresh_RemovePeer self peer a :
  pipes_fresh a -> pipes_fresh (RemovePeer self peer a).2.
Proof.
  intros Hf. unfold RemovePeer.
  destruct (nodes a !! self) as [n|] eqn:Hn; [|done].
  destruct (peers n !! peer) as [rw0|] eqn:Hnp; [|done].
  eapply pipes_fresh_shrink; [exact Hf|done|].
  intros id p rw (m & Hm & Hp). cbn in Hm.
  destruct (decide (self = id)) as [<-|Hne].
  - rewrite lookup_insert_eq in Hm. injection Hm as <-. cbn in Hp.
    exists n. split; [done|]. by apply lookup_delete_Some in Hp as [_ ?].
  - rewrite lookup_insert_ne in Hm by done. by exists m.
Qed.

Lemma pipes_fresh_runner_exit node peer err a :
  pipes_fresh a -> pipes_fresh (runner_exit node peer err a).2.
Proof.
  intros Hf. unfold runner_exit.
  pose proof (pipes_fresh_RemovePeer node peer a Hf) as H1.
  destruct (RemovePeer node peer a) as [[o r] a1]. cbn in H1.
  destruct o; [|done|done]. destruct err as [e|]; [|done].
  eapply pipes_fresh_shrink; [exact H1|done|].
  intros id p rw (m & Hm & Hp). cbn in Hm.
  destruct (decide (node = id)) as [<-|Hne].
  - rewrite lookup_alter_eq in Hm.
    destruct (nodes a1 !! node) as [m'|]; [|done].
    injection Hm as <-. by exists m'.
  - rewrite lookup_alter_ne in Hm by done. by exists m.
Qed.

Lemma pipes_fresh_NewNode services id service a :
  pipes_fresh a -> pipes_fresh (NewNode services id service a).2.
Proof.
  intros Hf. unfold NewNode.
  destruct (nodes a !! id) eqn:Hid; [done|].
  destruct (decide (service ∈ services)); [|done].
  eapply pipes_fresh_shrink; [exact Hf|done|].
  intros id' p rw (m & Hm & Hp). cbn in Hm.
  destruct (decide (id = id')) as [<-|Hne].
  - rewrite lookup_insert_eq in Hm. injection Hm as <-. cbn in Hp.
    by rewrite lookup_empty in Hp.
  - rewrite lookup_insert_ne in Hm by done. by exists m.
Qed.

(** An adapter whose nodes have no peers shares no pipe. *)
Lemma pipes_fresh_no_peers a :
  (forall id n, nodes a !! id = Some n -> peers n = ∅) -> pipes_fresh a.
Proof.
  intros H. split.
  - intros id n p rw Hn Hp. rewrite (H id n Hn), lookup_empty in Hp. done.
  - intros id1 n1 p1 rw1 id2 n2 p2 rw2 Hn1 Hp1. rewrite (H id1 n1 Hn1), lookup_empty in Hp1.
    done.
Qed.

(** X17.  Pipes are never shared.  In a new adapter, and in every state
    reached from an adapter in which it holds (one with started nodes, for
    one), whatever nodes are created, whatever peers are added and removed
    and however the runners end: every pipe end found in a peer table
    belongs to a pipe the adapter has made, and no two entries, in the same
    or in different tables, are ends of the same pipe. *)
Theorem pipes_are_never_shared
    (services : gset string) (cs : list call) (a : SimAdapter) :
  pipes_fresh NewSimAdapter
  /\ (pipes_fresh a -> pipes_fresh (after_all services cs a)).
Proof.
  split; [by apply pipes_fresh_no_peers|].
  unfold after_all. revert a.
  induction cs as [|c cs IH]; intros a Ha; cbn; [done|].
  apply IH. destruct c; cbn.
  - by apply pipes_fresh_NewNode.
  - by apply pipes_fresh_AddPeer.
  - by apply pipes_fresh_RemovePeer.
  - by apply pipes_fresh_runner_exit.
Qed.
End SimAdapterPipes.

(** * Further properties of the local store *)

Section LittleEndian.
Import Storage.

Lemma byte_lor_shift x s :
  (0 <= s)%Z ->
  Z.lor (Z.of_N (Byte.to_N x)) (Z.shiftl s 8) = (Z.of_N (Byte.to_N x) + 256 * s)%Z.
Proof.
  intros Hs.
  assert (0 <= Z.of_N (Byte.to_N x) < 2 ^ 8)%Z as Hx.
  { pose proof (Byte.to_N_bounded x). lia. }
  set (a := Z.of_N (Byte.to_N x)) in *.
  assert (Z.land a (Z.shiftl s 8) = 0%Z) as Hland.
  { apply Z.bits_inj'. intros n Hn. rewrite Z.land_spec, Z.bits_0.
    destruct (Z.lt_ge_cases n 8) as [Hlt|Hge].
    - rewrite (Z.shiftl_spec_low s 8 n Hlt). apply Bool.andb_false_r.
    - destruct (Z.eq_dec a 0) as [->|Hne]; [by rewrite Z.bits_0|].
      rewrite (Z.bits_above_log2 a n); [done|lia|].
      assert (2 ^ 8 <= 2 ^ n)%Z by (apply Z.pow_le_mono_r; lia).
      apply Z.log2_lt_pow2; lia. }
  rewrite <- (Z.lxor_lor _ _ Hland), <- (Z.add_nocarry_lxor _ _ Hland).
  rewrite Z.shiftl_mul_pow2 by lia. lia.
Qed.

Lemma Uint64_range b : (0 <= Uint64 b < 2 ^ (8 * Z.of_nat (length b)))%Z.
Proof.
  induction b as [|x b IH]; [cbn; lia|].
  change (Uint64 (x :: b)) with
    (Z.lor (Z.of_N (Byte.to_N x)) (Z.shiftl (Uint64 b) 8)).
  rewrite byte_lor_shift by lia.
  pose proof (Byte.to_N_bounded x).
  replace (8 * Z.of_nat (length (x :: b)))%Z with (8 + 8 * Z.of_nat (length b))%Z
    by (cbn [length]; lia).
  rewrite Z.pow_add_r by lia. lia.
Qed.

(** The lowest byte comes first. *)
Lemma Uint64_cons x b :
  Uint64 (x :: b) = (Z.of_N (Byte.to_N x) + 256 * Uint64 b)%Z.
Proof.
  change (Uint64 (x :: b)) with
    (Z.lor (Z.of_N (Byte.to_N x)) (Z.shiftl (Uint64 b) 8)).
  apply byte_lor_shift. apply Uint64_range.
Qed.

(** X18.  The Size that [Get] gives a chunk read from the durable store is
    the 8-byte little-endian prefix of the payload taken as a signed
    64-bit integer: it lies in the int64 range, it is congruent to the
    unsigned value modulo 2^64, and it is negative exactly when the
    unsigned value is 2^63 or more (the top bit of the eighth byte is
    set). *)
Theorem Get_Size_is_signed (key v : list byte) (s : State) :
  assoc_lookup key (memEntries (memStore s)) = None ->
  assoc_lookup key (dbEntries (dbStore s)) = Some v ->
  8 <= length v ->
  exists l s2 c,
    Get key s = (Found l, s2) /\ heap s2 !! l = Some c
    /\ (- 2 ^ 63 <= Size c < 2 ^ 63)%Z
    /\ (Size c mod 2 ^ 64 = Uint64 (take 8 v))%Z
    /\ (Size c < 0 <-> 2 ^ 63 <= Uint64 (take 8 v))%Z.
Proof.
  intros Hm Hd Hlen. unfold Get.
  rewrite (MemStore_Get_miss _ _ Hm), (DbStore_Get_hit _ _ _ Hd).
  cbn [heap set_heap set_dbStore]. rewrite lookup_insert_eq.
  cbn [SData spare]. rewrite (slice_0_8_long _ _ Hlen).
  eexists _, _, _. split; [reflexivity|].
  cbn [heap set_heap set_memStore]. rewrite lookup_insert_eq.
  split; [reflexivity|]. cbn [Size set_Size].
  pose proof (Uint64_range (take 8 v)) as Hr.
  rewrite length_take, Nat.min_l in Hr by done.
  change (8 * Z.of_nat 8)%Z with 64%Z in Hr.
  unfold int64. destruct (Z.ltb_spec (Uint64 (take 8 v)) (2 ^ 63)) as [Hlt|Hge].
  - split; [lia|]. split; [apply Z.mod_small; lia|lia].
  - split; [lia|]. split; [|lia].
    replace (Uint64 (take 8 v) - 2 ^ 64)%Z
      with (Uint64 (take 8 v) + (-1) * 2 ^ 64)%Z by lia.
    rewrite Z.mod_add by lia. apply Z.mod_small. lia.
Qed.

(** X19.  [Get] is a read-through cache: after a [Get] that found the
    chunk in the durable store and whose memory store admitted it (it had
    room, or an entry that was not pending), a second [Get] of the key
    returns the same chunk object from the memory store; it reads no more
    from the durable store and creates no chunk. *)
Theorem Get_twice_hits_memory (key v : list byte) (s : State) :
  assoc_lookup key (memEntries (memStore s)) = None ->
  assoc_lookup key (dbEntries (dbStore s)) = Some v ->
  8 <= length v ->
  admits (heap s) key (memStore s) = true ->
  exists l s2 s3,
    Get key s = (Found l, s2)
    /\ Get key s2 = (Found l, s3)
    /\ heap s3 = heap s2 /\ dbStore s3 = dbStore s2
    /\ heap s !! l = None.
Proof.
  intros Hm Hd Hlen Hadm.
  destruct (Get_promotes key s v Hm Hd)
    as (l & s2 & c & HG & Hfresh & _ & _ & _ & _ & _ & _ & Hheld); [lia|].
  exists l, s2. unfold Get at 2.
  rewrite (MemStore_Get_hit _ _ _ (Hheld Hadm)).
  eexists. split; [exact HG|]. split; [reflexivity|]. by cbn.
Qed.
End LittleEndian.

Section LocalStoreGoroutines.
Import Storage.
Variable Hash : list byte -> list byte.

(** What one scheduling step does to the chunks and to the goroutines. *)
Lemma run_nth_effect i ok s s' :
  run_nth i ok s = Some s' ->
  exists l c,
    goroutines s !! i = Some l /\ heap s !! l = Some c
    /\ goroutines s' = delete i (goroutines s)
    /\ heap s' = <[l := set_dbStored Closed c]> (heap s)
    /\ memStore s' = memStore s
    /\ match wg c with
       | Some g => counter g s <> 0%N
                   /\ waitGroups s' = <[g := (counter g s - 1)%N]> (waitGroups s)
       | None => waitGroups s' = waitGroups s
       end.
Proof.
  unfold run_nth. destruct (goroutines s !! i) as [l|] eqn:Hl; [|done].
  set (s0 := set_goroutines _ s).
  destruct (heap s0 !! l) as [c|] eqn:Hc.
  - rewrite (run_goroutine_unfold ok l s0 c Hc), (DbStore_Put_unfold ok l s0 c Hc).
    intros H. exists l, c. split; [done|]. split; [done|].
    destruct (wg c) as [g|].
    + unfold wg_Done, counter in *. cbn [waitGroups] in H.
      destruct (N.eqb_spec (default 0%N (waitGroups s0 !! g)) 0) as [E|E]; [done|].
      injection H as <-. by cbn.
    + injection H as <-. by cbn.
  - unfold run_goroutine, DbStore_Put. by rewrite Hc, Hc.
Qed.

(** X20.  A pending chunk (SData nil) that is put is never stored: [Put]
    starts no goroutine for it, so however the pending goroutines run, its
    [dbStored] is never closed and [WaitToStore] on it does not return.
    When the memory store admits it (it has room, or an entry that is not
    pending), it is cached like any other chunk: [Get] of its key returns
    it, still without data. *)
Theorem pending_chunk_is_cached_never_stored (s : State) (chunk : loc) (c : Chunk) :
  heap s !! chunk = Some c ->
  SData c = None ->
  chunk ∉ goroutines s ->
  exists s1 c1,
    Put Hash chunk s = Some s1 /\ heap s1 !! chunk = Some c1
    /\ goroutines s1 = goroutines s
    /\ (forall s2, rtc step s1 s2 -> ~ stored chunk s2)
    /\ (admits (heap s1) (Key c1) (memStore s) = true ->
        exists s2 c2, Get (Key c1) s1 = (Found chunk, s2)
                      /\ heap s2 !! chunk = Some c2 /\ SData c2 = None).
Proof.
  intros Hc Hd Hnot.
  destruct (Put_unfold Hash s chunk c Hc) as (c2 & _ & Hd2 & _ & _ & Hopen & HP).
  rewrite Hd, app_nil_r in HP.
  eexists _, c2. split; [exact HP|]. split; [cbn; apply lookup_insert_eq|].
  split; [done|]. split.
  - set (s1 := mkState _ _ _ _ _).
    assert ((chunk ∉ goroutines s1)
            /\ exists c', heap s1 !! chunk = Some c' /\ dbStored c' = Open) as Hinv.
    { split; [done|]. exists c2. split; [apply lookup_insert_eq|done]. }
    clearbody s1. intros s2 Hsteps. induction Hsteps as [s1|s1 s2 s3 H12 _ IH].
    + destruct Hinv as (_ & c' & Hc' & Ho). intros (c'' & Hc'' & Hcl). congruence.
    + apply IH. destruct Hinv as (Hn & c' & Hc' & Ho).
      destruct H12 as (i & ok & Hrun).
      destruct (run_nth_effect i ok s1 s2 Hrun) as (l & cl & Hl & _ & Hg & Hh & _).
      assert (l <> chunk) as Hne.
      { intros ->. apply Hn. by eapply list_elem_of_lookup_2. }
      split.
      * rewrite Hg. intros Hin. apply Hn. by eapply list_elem_of_delete_inv.
      * exists c'. by rewrite Hh, lookup_insert_ne.
  - cbn [heap]. intros Hadm. unfold Get. cbn [memStore].
    erewrite MemStore_Get_hit
      by (apply MemStore_Put_lookup; [apply lookup_insert_eq|exact Hadm]).
    eexists _, c2. split; [reflexivity|]. cbn. rewrite lookup_insert_eq.
    split; [done|congruence].
Qed.

Lemma filter_delete_length {A : Type} (f : A -> bool) (l : list A) i x :
  l !! i = Some x ->
  length (List.filter f (delete i l)) + (if f x then 1 else 0)
  = length (List.filter f l).
Proof.
  revert i. induction l as [|y l IH]; intros [|i] H; try done.
  - injection H as ->. change (delete 0 (x :: l)) with l.
    cbn [List.filter]. destruct (f x); cbn [length]; lia.
  - change (l !! i = Some x) in H. specialize (IH i H).
    change (delete (S i) (y :: l)) with (y :: delete i l).
    cbn [List.filter]. destruct (f y); cbn [length]; lia.
Qed.

Lemma owes_insert h g l c c' l' :
  h !! l = Some c -> wg c' = wg c -> owes (<[l := c']> h) g l' = owes h g l'.
Proof.
  intros Hl Hwg. unfold owes. destruct (decide (l = l')) as [<-|Hne].
  - by rewrite lookup_insert_eq, Hl, Hwg.
  - by rewrite lookup_insert_ne.
Qed.

Lemma filter_owes_insert h g l c c' gs :
  h !! l = Some c -> wg c' = wg c ->
  List.filter (owes (<[l := c']> h) g) gs = List.filter (owes h g) gs.
Proof.
  intros Hl Hwg. induction gs as [|x gs IH]; [done|].
  cbn. by rewrite IH, (owes_insert h g l c c' x Hl Hwg).
Qed.

(** X21.  The wait groups never go negative.  In a state where every
    pending goroutine has its chunk and no wait group is owed more [Done]s
    than its counter holds (as in any state without goroutines), [Put]
    keeps it so, and every pending goroutine, whichever runs next and
    whether its write succeeds or fails, runs to its end without
    panicking in [Done] and keeps it so. *)
Theorem wait_groups_stay_balanced (s : State) :
  balanced s ->
  (forall chunk c, heap s !! chunk = Some c ->
     exists s1, Put Hash chunk s = Some s1 /\ balanced s1)
  /\ (forall i l ok, goroutines s !! i = Some l ->
        exists s', run_nth i ok s = Some s' /\ balanced s'
                   /\ length (goroutines s') < length (goroutines s)).
Proof.
  intros [Hin Hbal]. split.
  - intros chunk c Hc.
    destruct (Put_unfold Hash s chunk c Hc) as (c2 & _ & _ & _ & Hwg & _ & HP).
    eexists. split; [exact HP|]. split.
    + cbn. intros l Hl. apply elem_of_app in Hl as [Hl|Hl].
      * destruct (decide (chunk = l)) as [<-|Hne];
          [by rewrite lookup_insert_eq|rewrite lookup_insert_ne by done; by apply Hin].
      * destruct (SData c); [|by apply elem_of_nil in Hl].
        apply list_elem_of_singleton in Hl as ->. by rewrite lookup_insert_eq.
    + intros g. unfold owing, counter. cbn [heap goroutines waitGroups].
      rewrite (filter_owes_insert _ g chunk c c2 _ Hc Hwg).
      rewrite List.filter_app, length_app.
      specialize (Hbal g). unfold owing, counter in Hbal.
      assert (length (List.filter (owes (heap s) g)
                        match SData c with Some _ => [chunk] | None => [] end)
              <= if decide (wg c = Some g) then 1 else 0) as Hnew.
      { destruct (SData c); cbn; [|destruct (decide _); lia].
        unfold owes. rewrite Hc. case_bool_decide; destruct (decide _); cbn; try lia; done. }
      destruct (wg c) as [g'|] eqn:Hg'.
      * destruct (decide (g' = g)) as [->|Hne].
        -- rewrite lookup_insert_eq. cbn. rewrite decide_True in Hnew by done. lia.
        -- rewrite lookup_insert_ne by done.
           rewrite decide_False in Hnew by congruence. lia.
      * rewrite decide_False in Hnew by done. lia.
  - intros i l ok Hl.
    assert (l ∈ goroutines s) as Hmem by (by eapply list_elem_of_lookup_2).
    destruct (Hin l Hmem) as [c Hc].
    assert (exists s', run_nth i ok s = Some s') as [s' Hrun].
    { unfold run_nth. rewrite Hl.
      erewrite run_goroutine_unfold by exact Hc.
      destruct (wg c) as [g|] eqn:Hg; [|by eexists].
      erewrite DbStore_Put_unfold by exact Hc.
      unfold wg_Done, counter. cbn [waitGroups set_goroutines].
      destruct (N.eqb_spec (default 0%N (waitGroups s !! g)) 0) as [E|E]; [|by eexists].
      exfalso. specialize (Hbal g). unfold counter in Hbal. rewrite E in Hbal.
      pose proof (filter_delete_length (owes (heap s) g) _ i l Hl) as Hf.
      unfold owing in Hbal. unfold owes at 2 in Hf. rewrite Hc in Hf.
      rewrite bool_decide_true in Hf by done. lia. }
    exists s'. split; [exact Hrun|].
    destruct (run_nth_effect i ok s s' Hrun) as (l' & c' & Hl' & Hc' & Hg & Hh & _ & Hw).
    assert (l' = l) as -> by congruence. assert (c' = c) as -> by congruence.
    split; [split|].
    + rewrite Hg, Hh. intros x Hx.
      assert (x ∈ goroutines s) as Hx' by (by eapply list_elem_of_delete_inv).
      destruct (decide (l = x)) as [<-|Hne];
        [by rewrite lookup_insert_eq|rewrite lookup_insert_ne by done; by apply Hin].
    + intros g. unfold owing, counter. rewrite Hg, Hh.
      rewrite (filter_owes_insert _ g l c (set_dbStored Closed c) _ Hc eq_refl).
      pose proof (filter_delete_length (owes (heap s) g) _ i l Hl) as Hf.
      specialize (Hbal g). unfold owing, counter in Hbal.
      unfold owes at 2 in Hf. rewrite Hc in Hf.
      destruct (wg c) as [g'|] eqn:Hg'.
      * destruct Hw as [Hnz ->]. unfold counter in Hnz.
        destruct (decide (g' = g)) as [->|Hne].
        -- rewrite lookup_insert_eq. cbn. unfold counter.
           rewrite bool_decide_true in Hf by done. lia.
        -- rewrite lookup_insert_ne by done.
           rewrite bool_decide_false in Hf by congruence. lia.
      * rewrite Hw. rewrite bool_decide_false in Hf by done. lia.
    + rewrite Hg, length_delete by (by eexists).
      apply lookup_lt_Some in Hl. lia.
Qed.
End LocalStoreGoroutines.

(** * Properties of the round-robin store *)

Section RoundRobinStore.
Import RoundRobin.
Context {St : Type} `{!ChunkStore St}.

Lemma mod_shift_ne x d n : 0 < d < n -> (x + d) mod n <> x mod n.
Proof.
  intros Hd Heq.
  pose proof (Nat.div_mod_eq (x + d) n) as H1.
  pose proof (Nat.div_mod_eq x n) as H2.
  rewrite Heq in H1.
  set (q1 := (x + d) / n) in *. set (q2 := x / n) in *.
  destruct (le_lt_dec q1 q2) as [Hle|Hlt].
  - pose proof (Nat.mul_le_mono_l q1 q2 n Hle). lia.
  - pose proof (Nat.mul_le_mono_l (q2 + 1) q1 n ltac:(lia)). lia.
Qed.

(** The position of the next [Put], away from the wrap of the counter. *)
Lemma position_next i n :
  (0 <= i)%Z -> (i + 1 < 2 ^ 32)%Z ->
  AddUint32 i = (i + 1)%Z
  /\ position (AddUint32 i) n = (Z.to_nat i + 1) mod n.
Proof.
  intros H0 H1. unfold AddUint32, position.
  rewrite (Z.mod_small (i + 1)) by lia. split; [done|].
  replace (i + 1)%Z with (Z.of_nat (Z.to_nat i + 1)) by lia.
  rewrite <- Nat2Z.inj_mod. apply Nat2Z.id.
Qed.

Lemma Put_nonempty (chunk : Storage.loc) (rrs : roundRobinStore St) :
  stores rrs <> [] ->
  Put chunk rrs =
    Some (mkRoundRobin (AddUint32 (index rrs))
            (alter (store_Put chunk)
               (position (AddUint32 (index rrs)) (length (stores rrs))) (stores rrs))).
Proof. unfold Put. by destruct (stores rrs). Qed.

(** X22.  [Put] hands the chunk to exactly one store and leaves the
    others alone: the store at position (index + 1) mod n, counted with
    the index before the call, so that the first [Put] of a new store goes
    to position 1 (or 0 when there is one store).  When the counter is at
    its last value it wraps and the chunk goes to position 0.  With no
    store at all [Put] panics on the division. *)
Theorem Put_routes_to_one_store (chunk : Storage.loc) (rrs : roundRobinStore St) :
  (0 <= index rrs < 2 ^ 32)%Z ->
  (stores rrs = [] -> Put chunk rrs = None)
  /\ (stores rrs <> [] ->
      let k := if decide (index rrs = 2 ^ 32 - 1)%Z then 0
               else (Z.to_nat (index rrs) + 1) mod length (stores rrs) in
      exists rrs',
        Put chunk rrs = Some rrs'
        /\ index rrs' = (if decide (index rrs = 2 ^ 32 - 1)%Z then 0
                         else index rrs + 1)%Z
        /\ k < length (stores rrs)
        /\ stores rrs' !! k = store_Put chunk <$> stores rrs !! k
        /\ (forall j, j <> k -> stores rrs' !! j = stores rrs !! j)
        /\ length (stores rrs') = length (stores rrs)).
Proof.
  intros Hi. split; [intros Hnil; unfold Put; by rewrite Hnil|].
  intros Hne k. rewrite (Put_nonempty chunk rrs Hne).
  assert (0 < length (stores rrs)) as Hn by (destruct (stores rrs); [done|cbn; lia]).
  assert (AddUint32 (index rrs) =
            (if decide (index rrs = 2 ^ 32 - 1)%Z then 0 else index rrs + 1)%Z
          /\ position (AddUint32 (index rrs)) (length (stores rrs)) = k) as [Ha Hk].
  { subst k. destruct (decide (index rrs = 2 ^ 32 - 1)%Z) as [E|E].
    - unfold AddUint32, position. rewrite E.
      replace (2 ^ 32 - 1 + 1)%Z with (1 * 2 ^ 32)%Z by lia.
      rewrite Z.mod_mul by lia. split; [done|]. by rewrite Z.mod_0_l by lia.
    - apply position_next; lia. }
  eexists. split; [reflexivity|]. cbn [index stores]. rewrite Hk.
  split; [exact Ha|]. split.
  { subst k. destruct (decide _); [done|]. apply Nat.mod_upper_bound. lia. }
  split; [apply list_lookup_alter_eq|].
  split; [|apply length_alter].
  intros j Hj. by apply list_lookup_alter_ne.
Qed.

(** Up to n chunks put in a row, without a wrap of the counter. *)
Lemma Put_all_spread (chunks : list Storage.loc) (rrs : roundRobinStore St) :
  0 < length (stores rrs) ->
  (0 <= index rrs)%Z -> (index rrs + Z.of_nat (length chunks) < 2 ^ 32)%Z ->
  length chunks <= length (stores rrs) ->
  exists rrs',
    Put_all chunks rrs = Some rrs'
    /\ index rrs' = (index rrs + Z.of_nat (length chunks))%Z
    /\ length (stores rrs') = length (stores rrs)
    /\ (forall t c, chunks !! t = Some c ->
          stores rrs' !! ((Z.to_nat (index rrs) + 1 + t) mod length (stores rrs))
          = store_Put c <$>
              stores rrs !! ((Z.to_nat (index rrs) + 1 + t) mod length (stores rrs)))
    /\ (forall j,
          (forall t, t < length chunks ->
             (Z.to_nat (index rrs) + 1 + t) mod length (stores rrs) <> j) ->
          stores rrs' !! j = stores rrs !! j).
Proof.
  revert rrs. induction chunks as [|c cs IH]; intros rrs Hn H0 H1 Hlen.
  { exists rrs. cbn. split; [done|]. split; [lia|]. split; [done|].
    split; [by intros t c' [=]|done]. }
  cbn [length] in H1, Hlen.
  destruct (position_next (index rrs) (length (stores rrs))) as [Ha Hp]; [lia|lia|].
  set (n := length (stores rrs)) in *. set (i0 := Z.to_nat (index rrs)) in *.
  assert (exists rrs1, Put c rrs = Some rrs1
          /\ index rrs1 = (index rrs + 1)%Z
          /\ stores rrs1 = alter (store_Put c) ((i0 + 1) mod n) (stores rrs))
    as (rrs1 & HP & Hi1 & Hs1).
  { rewrite Put_nonempty by (intros E; subst n; rewrite E in Hn; cbn in Hn; lia).
    eexists. split; [reflexivity|]. cbn [index stores].
    fold n. by rewrite Hp, Ha. }
  assert (length (stores rrs1) = n) as Hn1 by (rewrite Hs1; apply length_alter).
  destruct (IH rrs1) as (rrs' & HPA & Hi' & Hl' & Hhit & Hmiss);
    [lia|lia|lia|lia|].
  rewrite Hn1 in Hhit, Hmiss, Hl'.
  replace (Z.to_nat (index rrs1)) with (i0 + 1) in Hhit, Hmiss by lia.
  exists rrs'. cbn [Put_all]. rewrite HP. cbn.
  split; [exact HPA|]. split; [lia|]. split; [done|]. split.
  - intros [|t] c' Ht.
    + injection Ht as <-. rewrite Nat.add_0_r.
      rewrite Hmiss.
      * rewrite Hs1. apply list_lookup_alter_eq.
      * intros t Hlt. replace (i0 + 1 + 1 + t) with (i0 + 1 + (1 + t)) by lia.
        apply mod_shift_ne. lia.
    + cbn in Ht. replace (i0 + 1 + S t) with (i0 + 1 + 1 + t) by lia.
      rewrite (Hhit t c' Ht).
      rewrite Hs1, list_lookup_alter_ne; [done|].
      apply lookup_lt_Some in Ht.
      replace (i0 + 1 + 1 + t) with (i0 + 1 + (1 + t)) by lia.
      intros Heq. symmetry in Heq. revert Heq. apply mod_shift_ne. lia.
  - intros j Hj. rewrite Hmiss.
    + rewrite Hs1, list_lookup_alter_ne; [done|].
      specialize (Hj 0 ltac:(lia)). by rewrite Nat.add_0_r in Hj.
    + intros t Hlt. specialize (Hj (S t) ltac:(lia)).
      by replace (i0 + 1 + S t) with (i0 + 1 + 1 + t) in Hj by lia.
Qed.

(** X23.  Round robin: of up to n chunks put in a row into n stores
    (without a wrap of the counter), no two go to the same store; each
    store on the way receives exactly the chunk of its turn and every
    other store receives nothing. *)
Theorem Put_all_round_robin (chunks : list Storage.loc) (rrs : roundRobinStore St) :
  0 < length (stores rrs) ->
  (0 <= index rrs)%Z -> (index rrs + Z.of_nat (length chunks) < 2 ^ 32)%Z ->
  length chunks <= length (stores rrs) ->
  let turn t := (Z.to_nat (index rrs) + 1 + t) mod length (stores rrs) in
  exists rrs',
    Put_all chunks rrs = Some rrs'
    /\ (forall t t', t < t' < length chunks -> turn t <> turn t')
    /\ (forall t c, chunks !! t = Some c ->
          stores rrs' !! turn t = store_Put c <$> stores rrs !! turn t)
    /\ (forall j, (forall t, t < length chunks -> turn t <> j) ->
          stores rrs' !! j = stores rrs !! j).
Proof.
  intros Hn H0 H1 Hlen turn.
  destruct (Put_all_spread chunks rrs Hn H0 H1 Hlen)
    as (rrs' & HP & _ & _ & Hhit & Hmiss).
  exists rrs'. split; [exact HP|]. split; [|by split].
  intros t t' Ht. subst turn. cbn.
  replace (Z.to_nat (index rrs) + 1 + t') with (Z.to_nat (index rrs) + 1 + t + (t' - t)) by lia.
  intros Heq. revert Heq. apply not_eq_sym, mod_shift_ne. lia.
Qed.
End RoundRobinStore.

(** * Properties of the peer pool *)

Section HivePool.
Import Hive.

(** X24.  The pool holds one peer per address key.  A peer that is added
    is among the peers returned, whatever the target; adding a peer under
    a key that is taken replaces the old one, so the number of peers does
    not change; removing a peer that was added under a free key puts the
    pool back as it was; and a new hive returns no peer. *)
Theorem hive_pool_by_address_key (p : peer) (target : list byte) (h : hive) :
  p ∈ getPeers target (addPeer p h)
  /\ (is_Some (pool h !! addressKey p) ->
      length (getPeers target (addPeer p h)) = length (getPeers target h))
  /\ (pool h !! addressKey p = None ->
      length (getPeers target (addPeer p h)) = S (length (getPeers target h))
      /\ removePeer p (addPeer p h) = h)
  /\ (forall q, q ∈ getPeers target (removePeer p h) <->
        exists k, k <> addressKey p /\ pool h !! k = Some q)
  /\ getPeers target newHive = [].
Proof.
  unfold getPeers, addPeer, removePeer. cbn. repeat split.
  - apply list_elem_of_fmap. exists (addressKey p, p). split; [done|].
    apply elem_of_map_to_list. apply lookup_insert_eq.
  - intros [q Hq]. rewrite !length_fmap, !length_map_to_list.
    by erewrite map_size_insert_Some.
  - rewrite !length_fmap, !length_map_to_list. by apply map_size_insert_None.
  - rewrite delete_insert_id by done. by destruct h.
  - intros Hq. apply list_elem_of_fmap in Hq as ([k q'] & -> & Hk).
    apply elem_of_map_to_list in Hk. apply lookup_delete_Some in Hk as [Hne Hk].
    by exists k.
  - intros (k & Hne & Hk). apply list_elem_of_fmap. exists (k, q). split; [done|].
    apply elem_of_map_to_list. by rewrite lookup_delete_ne.
Qed.
End HivePool.

(** * The further properties on concrete inputs *)

Section NetworkWitnesses.
Import Simulations Fixtures MoreFixtures.

Lemma NewNode_adds_once_witness :
  exists net1,
    NewNode rlpx nodeC twoUp = (None, net1)
    /\ getNode nodeC net1 = Ok (Some 2)
    /\ NewNode rlpx nodeC net1 = (Some (NodeAlreadyAdded nodeC), net1).
Proof.
  destruct (NewNode_adds_once rlpx nodeC twoUp eq_refl)
    as (net1 & H1 & _ & H2 & _ & _ & H3).
  exists net1. split; [exact H1|]. split; [exact H2|exact H3].
Defined.

Lemma Start_Stop_round_trip_witness :
  exists net1,
    Start agree nodeA twoDown = Ok (None, [mkNodeEvent "up" "node" 0], net1)
    /\ node_up nodeA net1
    /\ Stop agree nodeA net1 = Ok (None, [mkNodeEvent "down" "node" 0], twoDown).
Proof.
  pose (net1 := set_Nodes (<[0 := set_Up true (Node.mk nodeA false (rlpx nodeA))]>
                             (Nodes twoDown)) twoDown).
  assert (Start agree nodeA twoDown = Ok (None, [mkNodeEvent "up" "node" 0], net1)) as HS
    by reflexivity.
  destruct (Start_Stop_round_trip agree agree nodeA twoDown net1 _ HS)
    as (i & n & Hn & Hev & Hup & _ & Hstop).
  exists net1. split; [exact HS|]. split; [exact Hup|].
  injection Hev as <-.
  exact (Hstop eq_refl).
Defined.

Lemma GetOrCreateConn_once_witness :
  exists net1,
    GetOrCreateConn sampleConnLabel nodeA nodeB twoUp = Ok (inl 0, net1)
    /\ GetOrCreateConn sampleConnLabel nodeA nodeB net1 = Ok (inl 0, net1)
    /\ GetOrCreateConn sampleConnLabel nodeB nodeA net1 = Ok (inl 0, net1).
Proof.
  pose (net1 := linked false).
  assert (GetOrCreateConn sampleConnLabel nodeA nodeB twoUp = Ok (inl 0, net1)) as HG
    by reflexivity.
  destruct (GetOrCreateConn_once sampleConnLabel nodeA nodeB twoUp net1 0 HG)
    as (H1 & H2 & _).
  exists net1. split; [exact HG|]. split; [exact H1|exact (H2 eq_refl)].
Defined.

Lemma Connect_failures_witness :
  Connect sampleConnLabel nodeC nodeB twoDown = Ok (Some ErrOneNotExist, twoDown)
  /\ exists net1,
       Connect sampleConnLabel nodeA nodeB twoDown = Ok (Some (ErrOneNotUp nodeA), net1)
       /\ getConn sampleConnLabel nodeA nodeB net1 = Ok (Some 0).
Proof.
  split.
  - exact (proj1 (Connect_failures sampleConnLabel nodeC nodeB twoDown eq_refl) eq_refl).
  - destruct (proj2 (Connect_failures sampleConnLabel nodeA nodeB twoDown eq_refl)
                0 1 (Node.mk nodeA false (rlpx nodeA)) (Node.mk nodeB false (rlpx nodeB))
                eq_refl eq_refl eq_refl eq_refl eq_refl)
      as (net1 & H1 & _ & H2).
    exists net1. split; [exact H1|exact H2].
Defined.

Lemma Connect_sees_later_Start_witness :
  exists net1 net2 net3 e2 e3,
    Connect sampleConnLabel nodeA nodeB twoDown = Ok (Some (ErrOneNotUp nodeA), net1)
    /\ Start agree nodeA net1 = Ok (None, e2, net2)
    /\ Start agree nodeB net2 = Ok (None, e3, net3)
    /\ Connect sampleConnLabel nodeA nodeB net3 = Ok (None, net3)
    /\ length (Conns net3) = 1.
Proof.
  destruct (Connect_sees_later_Start sampleConnLabel agree nodeA nodeB twoDown 0 1
              (Node.mk nodeA false (rlpx nodeA)) (Node.mk nodeB false (rlpx nodeB))
              eq_refl eq_refl eq_refl)
    as (net1 & net2 & net3 & e2 & e3 & H1 & H2 & H3 & H4 & H5);
    [lia|reflexivity|reflexivity|reflexivity|reflexivity|reflexivity|reflexivity|].
  exists net1, net2, net3, e2, e3.
  split; [exact H1|]. split; [exact H2|]. split; [exact H3|].
  split; [exact H4|]. rewrite H5. reflexivity.
Defined.

Lemma Disconnect_after_Connect_is_refused_witness :
  exists net1,
    Connect sampleConnLabel nodeA nodeB twoUp = Ok (None, net1)
    /\ Disconnect sampleConnLabel agree_Disconnect nodeA nodeB net1
       = Ok (Some (AlreadyDisconnected nodeA nodeB)).
Proof.
  assert (Connect sampleConnLabel nodeA nodeB twoUp = Ok (None, linked false)) as HC
    by reflexivity.
  exists (linked false). split; [exact HC|].
  exact (proj1 (Disconnect_after_Connect_is_refused sampleConnLabel agree_Disconnect
                  nodeA nodeB twoUp (linked false) HC)).
Defined.

Lemma DidConnect_DidDisconnect_round_trip_witness :
  exists net1 net2,
    DidConnect sampleConnLabel nodeA nodeB (linked false) = Ok (None, net1)
    /\ DidDisconnect sampleConnLabel nodeA nodeB net1 = Ok (None, net2)
    /\ Conn.Up <$> Conns net2 = [false]
    /\ length (events net2) = 2.
Proof.
  pose (net1 := mkNetwork (nodeMap (linked false)) (connMap (linked false))
                  (Nodes (linked false)) [Conn.mk nodeA nodeB 0 1 true false]
                  [mkConnEvent "up" "conn" 0]).
  assert (DidConnect sampleConnLabel nodeA nodeB (linked false) = Ok (None, net1)) as HD
    by reflexivity.
  destruct (DidConnect_DidDisconnect_round_trip sampleConnLabel nodeA nodeB
              (linked false) net1 HD)
    as (i & net2 & H1 & H2 & _ & _ & _ & H3 & _).
  exists net1, net2. split; [exact HD|]. split; [exact H1|].
  split; [exact H2|]. rewrite H3. reflexivity.
Defined.

Lemma Connect_and_Disconnect_direction_witness :
  Connect sampleConnLabel nodeB nodeA (linked false)
    = Ok (ErrAdapter <$> na_Connect (rlpx nodeB) nodeA, linked false)
  /\ Disconnect sampleConnLabel agree_Disconnect nodeB nodeA (linked true)
    = Ok (AdapterFault <$> agree_Disconnect (rlpx nodeB) nodeB).
Proof.
  split.
  - refine (proj2 (proj1 (Connect_and_Disconnect_direction sampleConnLabel agree_Disconnect
              nodeA nodeB (linked false) 0 (Conn.mk nodeA nodeB 0 1 false false)
              (Node.mk nodeA true (rlpx nodeA)) (Node.mk nodeB true (rlpx nodeB))
              _ eq_refl eq_refl eq_refl eq_refl eq_refl eq_refl eq_refl eq_refl eq_refl)
              eq_refl)).
    discriminate.
  - refine (proj2 (proj2 (Connect_and_Disconnect_direction sampleConnLabel agree_Disconnect
              nodeA nodeB (linked true) 0 (Conn.mk nodeA nodeB 0 1 true false)
              (Node.mk nodeA true (rlpx nodeA)) (Node.mk nodeB true (rlpx nodeB))
              _ eq_refl eq_refl eq_refl eq_refl eq_refl eq_refl eq_refl eq_refl eq_refl)
              eq_refl)).
    discriminate.
Defined.

End NetworkWitnesses.

Section AdapterWitnesses.
Import Adapters Fixtures MoreFixtures.

Lemma AddPeer_twice_witness :
  AddPeer nodeA nodeB peered = (Returned, peered)
  /\ PeerCount nodeA peered = Some 1.
Proof.
  refine (AddPeer_twice twoStarted peered nodeA nodeB startedNode startedNode
            "bzz" "bzz" [] [] eq_refl eq_refl eq_refl _ eq_refl eq_refl eq_refl).
  discriminate.
Defined.

Lemma AddPeer_RemovePeer_round_trip_witness :
  exists a'',
    RemovePeer nodeA nodeB peered = (Returned, Some (mkRW 0 true nodeA nodeA), a'')
    /\ nodes a'' = nodes twoStarted
    /\ pipes a'' = 1.
Proof.
  destruct (AddPeer_RemovePeer_round_trip twoStarted peered nodeA nodeB
              startedNode startedNode "bzz" "bzz" [] []
              eq_refl eq_refl eq_refl) as (a'' & H1 & H2 & H3 & _);
    [discriminate|reflexivity|reflexivity|reflexivity|].
  exists a''. split; [exact H1|]. split; [exact H2|exact H3].
Defined.

Lemma runner_exit_removes_then_reports_witness :
  (exists a',
     runner_exit nodeA nodeB (Some "EOF"%string) peered = (Returned, a')
     /\ nodes a' !! nodeA =
          Some (mkSimNode (Some ["bzz"%string]) ∅
                  [mkPeerEvent PeerEventTypeDrop nodeB "EOF"]))
  /\ (exists a', runner_exit nodeA nodeB None peered = (Panicked, a')).
Proof.
  split.
  - destruct (runner_exit_removes_then_reports peered nodeA nodeB
                (mkSimNode (Some ["bzz"%string]) {[nodeB := mkRW 0 true nodeA nodeA]} [])
                (Some "EOF"%string) eq_refl) as (a' & H1 & H2 & _).
    exists a'. split; [exact H1|]. rewrite H2. reflexivity.
  - destruct (runner_exit_removes_then_reports peered nodeA nodeB
                (mkSimNode (Some ["bzz"%string]) {[nodeB := mkRW 0 true nodeA nodeA]} [])
                None eq_refl) as (a' & H1 & _).
    exists a'. exact H1.
Defined.

Lemma AddPeer_on_unstarted_node_panics_late_witness :
  exists a',
    AddPeer nodeA nodeB idleCaller = (Panicked, a')
    /\ pipes a' = 1 /\ length (goroutines a') = 3
    /\ PeerCount nodeA a' = Some 1.
Proof.
  eexists. split.
  - refine (AddPeer_on_unstarted_node_panics_late idleCaller nodeA nodeB idleNode
              startedNode "bzz" [] eq_refl eq_refl eq_refl _ eq_refl eq_refl).
    discriminate.
  - repeat split.
Defined.

Lemma AddPeer_changes_nothing_unless_witness :
  (AddPeer nodeA nodeB peered).2 = peered
  /\ Admin_AddPeer (fun _ => Some nodeB) nodeA "enode" peered
     = (Returned, true, peered).
Proof.
  assert (~ (exists n peerNode,
               nodes peered !! nodeA = Some n /\ nodes peered !! nodeB = Some peerNode
               /\ peers n !! nodeB = None /\ nodeB <> nodeA /\ Running peerNode = true))
    as Hno.
  { intros (n & pn & Hn & _ & Hp & _).
    assert (nodes peered !! nodeA
            = Some (mkSimNode (Some ["bzz"%string]) {[nodeB := mkRW 0 true nodeA nodeA]} []))
      as E by reflexivity.
    rewrite E in Hn. injection Hn as <-. discriminate Hp. }
  destruct (AddPeer_changes_nothing_unless (fun _ => Some nodeB) "enode" peered
              nodeA nodeB Hno) as [H1 H2].
  split; [exact H1|exact (H2 eq_refl eq_refl)].
Defined.

Lemma NewNode_adds_idle_node_witness :
  exists a',
    NewNode {["bzz"%string]} nodeC "bzz" twoStarted = (None, a')
    /\ GetNode nodeC a' = Some idleNode
    /\ AddPeer nodeA nodeC a' = (Returned, a').
Proof.
  destruct (NewNode_adds_idle_node {["bzz"%string]} nodeC "bzz" twoStarted eq_refl)
    as (a' & H1 & H2 & _ & _ & _ & H3).
  { apply elem_of_singleton. reflexivity. }
  exists a'. split; [exact H1|]. split; [exact H2|].
  apply H3; [discriminate|]. exists startedNode. reflexivity.
Defined.
(** Two started nodes add each other: two pipes, one entry each. *)
Lemma pipes_are_never_shared_witness :
  let a := after_all ∅ [CallAddPeer nodeA nodeB; CallAddPeer nodeB nodeA] twoStarted in
  pipes_fresh a
  /\ pipes a = 2
  /\ (peers <$> nodes a !! nodeA) = Some {[nodeB := mkRW 0 true nodeA nodeA]}
  /\ (peers <$> nodes a !! nodeB) = Some {[nodeA := mkRW 1 true nodeB nodeB]}.
Proof.
  split; [|repeat split].
  apply (pipes_are_never_shared ∅ [CallAddPeer nodeA nodeB; CallAddPeer nodeB nodeA]
           twoStarted).
  apply pipes_fresh_no_peers. intros id n H.
  unfold twoStarted in H. cbn [nodes] in H.
  apply lookup_insert_Some in H as [[_ <-]|[_ H]]; [reflexivity|].
  apply lookup_singleton_Some in H as [_ <-]. reflexivity.
Defined.
End AdapterWitnesses.

Section StoreWitnesses.
Import Storage Fixtures MoreFixtures.

Lemma Get_Size_is_signed_witness :
  exists l s2 c,
    Get hugeKey hugeState = (Found l, s2) /\ heap s2 !! l = Some c
    /\ (Size c < 0)%Z.
Proof.
  destruct (Get_Size_is_signed hugeKey hugePayload hugeState eq_refl eq_refl)
    as (l & s2 & c & H1 & H2 & _ & _ & H3).
  { apply Nat.leb_le. reflexivity. }
  exists l, s2, c. split; [exact H1|]. split; [exact H2|].
  apply H3. apply Z.leb_le. reflexivity.
Defined.

Lemma Get_twice_hits_memory_witness :
  exists l s2 s3,
    Get longKey durableState = (Found l, s2)
    /\ Get longKey s2 = (Found l, s3)
    /\ dbStore s3 = dbStore s2.
Proof.
  destruct (Get_twice_hits_memory longKey longPayload durableState eq_refl eq_refl)
    as (l & s2 & s3 & H1 & H2 & _ & H3 & _).
  { apply Nat.leb_le. reflexivity. }
  { reflexivity. }
  exists l, s2, s3. split; [exact H1|]. split; [exact H2|exact H3].
Defined.

Lemma pending_chunk_is_cached_never_stored_witness :
  exists s1 c1,
    Put sampleHash 0 pendingState = Some s1 /\ heap s1 !! 0 = Some c1
    /\ ~ stored 0 s1
    /\ (exists s2, Get (Key c1) s1 = (Found 0, s2)).
Proof.
  destruct (pending_chunk_is_cached_never_stored sampleHash pendingState 0 pendingChunk
              eq_refl eq_refl)
    as (s1 & c1 & H1 & H2 & _ & H4 & H3).
  { apply not_elem_of_nil. }
  exists s1, c1. split; [exact H1|]. split; [exact H2|].
  split; [apply H4; apply rtc_refl|].
  destruct H3 as (s2 & c2 & H3 & _); [|exists s2; exact H3].
  assert (Some c1 = Some (mkChunk [x2a] None [] 0 (Some 0) Open)) as E.
  { rewrite <- H2.
    assert (heap <$> Some s1 = heap <$> Put sampleHash 0 pendingState) as E1
      by (by rewrite H1).
    injection E1 as ->. reflexivity. }
  injection E as ->. reflexivity.
Defined.

Lemma wait_groups_stay_balanced_witness :
  exists s1 s2,
    Put sampleHash 0 dataState = Some s1 /\ balanced s1
    /\ run_nth 0 false s1 = Some s2 /\ balanced s2.
Proof.
  assert (balanced dataState) as Hb.
  { split.
    - intros l Hl. exfalso. exact (not_elem_of_nil l Hl).
    - intros g. unfold owing. cbn. lia. }
  destruct (proj1 (wait_groups_stay_balanced sampleHash dataState Hb) 0 dataChunk eq_refl)
    as (s1 & HP & Hb1).
  assert (goroutines s1 !! 0 = Some 0) as Hg.
  { assert (goroutines <$> Put sampleHash 0 dataState = Some [0]) as E by reflexivity.
    rewrite HP in E. injection E as ->. reflexivity. }
  destruct (proj2 (wait_groups_stay_balanced sampleHash s1 Hb1) 0 0 false Hg)
    as (s2 & Hrun & Hb2 & _).
  exists s1, s2. split; [exact HP|]. split; [exact Hb1|]. split; [exact Hrun|exact Hb2].
Defined.
End StoreWitnesses.

Section OtherWitnesses.
Import RoundRobin Hive MoreFixtures.

Lemma Put_routes_to_one_store_witness :
  exists rrs',
    Put 7 threeLogs = Some rrs'
    /\ index rrs' = 1%Z
    /\ stores rrs' = [[]; [7]; []].
Proof.
  destruct (proj2 (Put_routes_to_one_store 7 threeLogs ltac:(cbn; lia)) ltac:(discriminate))
    as (rrs' & HP & Hi & _).
  exists rrs'. split; [exact HP|]. split; [exact Hi|].
  assert (Some rrs' = Some (mkRoundRobin 1 [[]; [7]; []])) as E
    by (rewrite <- HP; reflexivity).
  injection E as ->. reflexivity.
Defined.

Lemma Put_all_round_robin_witness :
  exists rrs',
    Put_all [7; 8; 9] threeLogs = Some rrs'
    /\ stores rrs' !! 1 = Some [7]
    /\ stores rrs' !! 2 = Some [8]
    /\ stores rrs' !! 0 = Some [9].
Proof.
  destruct (Put_all_round_robin [7; 8; 9] threeLogs)
    as (rrs' & HP & _ & Hhit & _); [cbn; lia|cbn; lia|cbn; lia|cbn; lia|].
  exists rrs'. split; [exact HP|].
  split; [exact (Hhit 0 7 eq_refl)|].
  split; [exact (Hhit 1 8 eq_refl)|exact (Hhit 2 9 eq_refl)].
Defined.

Lemma hive_pool_by_address_key_witness :
  somePeer ∈ getPeers [] (addPeer somePeer newHive)
  /\ length (getPeers [] (addPeer somePeer newHive)) = 1
  /\ removePeer somePeer (addPeer somePeer newHive) = newHive.
Proof.
  destruct (hive_pool_by_address_key somePeer [] newHive) as (H1 & _ & H2 & _ & _).
  destruct (H2 eq_refl) as [H3 H4].
  split; [exact H1|]. split; [exact H3|exact H4].
Defined.
End OtherWitnesses.
